(** * wire: extended strings, multi-pattern replacement, casts,
      interpolation and expression evaluation

    A shallow embedding of [wire.hpp] (namespace [wire]) and the properties
    of its operations: [wire::string::replace_map], [matches] and [at], the
    casts [wire::as], and the functions [locate], [extract], [translate] and
    [eval] that the header declares.

    - [std::string] is a [string] of bytes ([ascii]);
    - [std::map<std::string,std::string>] is an association list kept in
      strictly ascending key order (the order of [std::less<std::string>]),
      so that [begin..end] is the list and [rbegin..rend] is its reverse;
    - a thrown [std::out_of_range] is the [OutOfRange] result;
    - loops whose index only grows run on a step budget, and are shown never
      to exhaust the budget they are started with. *)

From Stdlib Require Import List ZArith Lia Bool Arith PeanoNat.
From Stdlib Require Import OrdersEx Sorting.Sorted RelationClasses.
From Stdlib Require Import Floats.PrimFloat Numbers.Cyclic.Int63.Uint63.
From Stdlib Require Import Ascii String.
Import ListNotations.

Local Open Scope string_scope.

(** ** Results of operations that may throw *)

Inductive result (A : Type) : Type :=
| Ok (a : A)
| OutOfRange.
Arguments Ok {A} a.
Arguments OutOfRange {A}.

Definition result_map {A B} (f : A -> B) (r : result A) : result B :=
  match r with
  | Ok a => Ok (f a)
  | OutOfRange => OutOfRange
  end.

(** Sequencing of two budgeted, possibly throwing computations. *)
Definition and_then {A B} (x : option (result A)) (k : A -> option (result B))
  : option (result B) :=
  match x with
  | Some (Ok a) => k a
  | Some OutOfRange => Some OutOfRange
  | None => None
  end.

(** [out + rest] on the result of a computation. *)
Definition prepend (out : string) (x : option (result string)) : option (result string) :=
  option_map (result_map (append out)) x.

(** ** std::string helpers *)

(** The suffix of [s] starting at index [n] (pointer [&s[n]]). *)
Fixpoint drop (n : nat) (s : string) : string :=
  match n, s with
  | O, _ => s
  | S n', String _ s' => drop n' s'
  | S _, EmptyString => EmptyString
  end.

(** ** std::map<std::string,std::string> *)

Definition smap : Type := list (string * string).

(** [std::less<std::string>]: lexicographic order on the bytes. *)
Definition key_lt : string -> string -> Prop := String_as_OT.lt.

(** The class invariant of [std::map]: keys strictly ascending (hence unique). *)
Definition map_ok (m : smap) : Prop := StronglySorted key_lt (map fst m).

(** [m[k] = v]. *)
Fixpoint map_set (k v : string) (m : smap) : smap :=
  match m with
  | [] => [(k, v)]
  | (k', v') :: m' =>
      match String_as_OT.compare k k' with
      | Lt => (k, v) :: m
      | Eq => (k, v) :: m'
      | Gt => (k', v') :: map_set k v m'
      end
  end.

(** The map a caller obtains by registering [rules] one after the other,
    the head of the list first. *)
Definition register (rules : list (string * string)) : smap :=
  fold_left (fun m kv => map_set (fst kv) (snd kv) m) rules [].

(** ** wire::string::replace_map *)

Module ReplaceMap.

(** Outcome of the inner [for] over [rbegin..rend] at one scan position. *)
Inductive probe : Type :=
| Hit (target replacement : string)   (* [found = true] after this rule *)
| Miss                                (* iterator reached [rend] *)
| Throw.                              (* [target.at(0)] on an empty target *)

(** The inner loop at position [i] of [self]; [its] is the part of the
    reverse iteration still ahead.  [&target.at(0)] is evaluated (and throws
    on an empty target) before [memcmp] is called. *)
Fixpoint scan_rules (self : string) (i : nat) (its : list (string * string)) : probe :=
  match its with
  | [] => Miss
  | (target, replacement) :: its' =>
      let match_length := length target in
      if (length target <=? length self - i)%nat then
        match target with
        | EmptyString => Throw
        | String _ _ =>
            if (substring i match_length self =? target)%string
            then Hit target replacement
            else scan_rules self i its'
        end
      else scan_rules self i its'
  end.

(** The two tests guarding a replacement: enough input is left at [i], and
    its first [target.size()] bytes are those of [target]. *)
Definition starts_at (self : string) (i : nat) (target : string) : bool :=
  (length target <=? length self - i)%nat &&
  (substring i (length target) self =? target)%string.

(** [this->at(i)] for [i < size()]; the circular [at] is the identity on
    such an index. *)
Definition char_at (self : string) (i : nat) : string :=
  match get i self with
  | Some c => String c EmptyString
  | None => EmptyString
  end.

(** The outer [for( size_t i = 0; i < this->size(); )]; [None] is an
    exhausted step budget. *)
Fixpoint replace_map_loop (fuel : nat) (self : string) (m : smap) (i : nat) (out : string)
  : option (result string) :=
  match fuel with
  | O => None
  | S fuel' =>
      if (i <? length self)%nat then
        match scan_rules self i (rev m) with
        | Hit target replacement =>
            replace_map_loop fuel' self m (i + length target) (out ++ replacement)
        | Miss =>
            replace_map_loop fuel' self m (i + 1) (out ++ char_at self i)
        | Throw => Some OutOfRange
        end
      else Some (Ok out)
  end.

Definition replace_map (self : string) (replacements : smap) : option (result string) :=
  replace_map_loop (S (length self)) self replacements 0 "".

End ReplaceMap.

(** ** wire::string::matches *)

Module Matches.

Definition NUL : ascii := "000"%char.

(** [*p] for a pointer into the buffer of [c_str()]: the byte under it, the
    terminator once the bytes are exhausted. *)
Definition deref (s : string) : ascii :=
  match s with
  | EmptyString => NUL
  | String c _ => c
  end.

(** [local::match( pattern, str )]: one case per [if], the recursion on
    [pattern + 1] and, for [*], on [str + 1]. *)
Fixpoint match_ (pattern : string) : string -> bool :=
  match pattern with
  | EmptyString => fun str => (deref str =? NUL)%char
  | String p pattern' =>
      if (p =? NUL)%char then fun str => (deref str =? NUL)%char
      else if (p =? "*")%char then
        fix star (str : string) : bool :=
          match_ pattern' str ||
          match str with
          | EmptyString => false
          | String c str' => negb (c =? NUL)%char && star str'
          end
      else if (p =? "?")%char then
        fun str =>
          match str with
          | EmptyString => false
          | String c str' =>
              negb (c =? NUL)%char && negb (c =? ".")%char && match_ pattern' str'
          end
      else
        fun str =>
          match str with
          | EmptyString => false
          | String c str' => (c =? p)%char && match_ pattern' str'
          end
  end.

(** [text.matches( pattern )]. *)
Definition matches (text pattern : string) : bool := match_ pattern text.

(** The characters that separate lines and records in ASCII text: line
    feed, carriage return and the record separator RS. *)
Definition is_record_or_line_separator (c : ascii) : bool :=
  (c =? "010")%char || (c =? "013")%char || (c =? "030")%char.

End Matches.

(** ** wire::string::at *)

Module At.
Local Open Scope Z_scope.

Definition int_min : Z := - 2 ^ 31.
Definition int_max : Z := 2 ^ 31 - 1.

(** A value brought back into [int] (two's complement). *)
Definition wrap_int (z : Z) : Z := (z + 2 ^ 31) mod 2 ^ 32 - 2 ^ 31.

(** [pos >= 0 ? pos % size : size - 1 + ((pos+1) % size)]; [%] truncates
    towards zero. *)
Definition circular_index (size pos : Z) : Z :=
  if pos >=? 0 then Z.rem pos size
  else wrap_int (wrap_int (size - 1) + Z.rem (wrap_int (pos + 1)) size).

(** [std::string::at( size_type )]: the [int] index is converted to
    [size_t], so a negative one is out of range like a large one. *)
Definition std_at (s : string) (idx : Z) : result ascii :=
  if (0 <=? idx) && (idx <? Z.of_nat (String.length s)) then
    match get (Z.to_nat idx) s with
    | Some c => Ok c
    | None => OutOfRange
    end
  else OutOfRange.

(** [wire::string::at( const int &pos )]; on the empty string the slot
    [map[this]] is set to NUL and returned. *)
Definition at_ (self : string) (pos : Z) : result ascii :=
  let size := wrap_int (Z.of_nat (String.length self)) in
  if size =? 0 then Ok Matches.NUL
  else std_at self (circular_index size pos).

End At.

(** ** wire::as *)

Module As.

(** The primary template [as<T>].  [extract] is [std::istringstream(self) >> t]
    ([None] when the stream is left in a failed state) and [of_bool] the cast
    [(T)(is_true)]. *)
Section Primary.
Variable T : Type.
Variable extract : string -> option T.
Variable of_bool : bool -> T.

Definition is_true (self : string) : bool :=
  negb (length self =? 0)%nat && negb (self =? "0")%string && negb (self =? "false")%string.

Definition as_ (self : string) : T :=
  match extract self with
  | Some t => t
  | None => of_bool (is_true self)
  end.
End Primary.
Arguments as_ {T} extract of_bool self.

(** [operator>>( int & )] of the standard library: leading white space is
    skipped, then an optional sign and at least one decimal digit are read;
    what follows the digits is left in the stream; a value that does not fit
    an [int] fails the extraction. *)
Definition is_space (c : ascii) : bool :=
  (c =? " ")%char || ((9 <=? nat_of_ascii c)%nat && (nat_of_ascii c <=? 13)%nat).

Fixpoint skipws (s : string) : string :=
  match s with
  | String c s' => if is_space c then skipws s' else s
  | EmptyString => EmptyString
  end.

Definition digit_of (c : ascii) : option Z :=
  let n := nat_of_ascii c in
  if (48 <=? n)%nat && (n <=? 57)%nat then Some (Z.of_nat (n - 48)) else None.

Fixpoint read_digits (s : string) (acc : option Z) : option Z :=
  match s with
  | String c s' =>
      match digit_of c with
      | Some d => read_digits s' (Some (10 * match acc with Some a => a | None => 0 end + d)%Z)
      | None => acc
      end
  | EmptyString => acc
  end.

Definition extract_int (self : string) : option Z :=
  let s := skipws self in
  let (negative, s1) :=
    match s with
    | String "-" r => (true, r)
    | String "+" r => (false, r)
    | _ => (false, s)
    end in
  match read_digits s1 None with
  | None => None
  | Some n =>
      let v := if negative then (- n)%Z else n in
      if (At.int_min <=? v)%Z && (v <=? At.int_max)%Z then Some v else None
  end.

Definition int_of_bool (b : bool) : Z := if b then 1%Z else 0%Z.

(** [as<int>]. *)
Definition as_int (self : string) : Z := as_ extract_int int_of_bool self.

(** [(char)(n)] for an [int n]: the low byte. *)
Definition char_of_int (n : Z) : ascii := ascii_of_N (Z.to_N (n mod 256)%Z).

(** The specialisations [as<char>], [as<signed char>], [as<unsigned char>]:
    the byte is the same in the three. *)
Definition as_char (self : string) : ascii :=
  if (length self =? 1)%nat then Matches.deref self
  else char_of_int (as_int self).

End As.

(** ** wire::locate, wire::extract, wire::translate

    [wire.hpp] declares the three functions (lines 784-786); their bodies
    are not part of the header.  They are modelled from sections 4.3 to 4.5
    of the specification.  The store is passed explicitly.  The guard chain
    is the list of the recursion guards of the calls in progress; a pass
    that expands several variables hands all their keys to the next call. *)

Module Translate.

(** The variable store: name and value of each entry, most recent first. *)
Definition store : Type := list (string * string).

Fixpoint lookup (st : store) (name : string) : option string :=
  match st with
  | [] => None
  | (k, v) :: st' => if (k =? name)%string then Some v else lookup st' name
  end.

(** Modelled from the spec: the body of [locate] (section 4.3).  A missing
    name is inserted with the empty value; the value of the slot is
    returned together with the store. *)
Definition locate (st : store) (name : string) : store * string :=
  match lookup st name with
  | Some v => (st, v)
  | None => ((name, "") :: st, "")
  end.

(** Modelled from the spec: [assign] (section 4.3), the write through the
    handle of [locate]. *)
Fixpoint assign (st : store) (name value : string) : store :=
  match st with
  | [] => [(name, value)]
  | (k, v) :: st' =>
      if (k =? name)%string then (k, value) :: st' else (k, v) :: assign st' name value
  end.

Definition is_separator (sep0 sep1 c : ascii) : bool :=
  (c =? sep0)%char || (negb (sep1 =? Matches.NUL)%char && (c =? sep1)%char).

(** Splitting on separators; [cur] is the segment being read.  An empty
    segment is never produced. *)
Fixpoint split_segments (sep0 sep1 : ascii) (s cur : string) : list string :=
  match s with
  | EmptyString => if (cur =? "")%string then [] else [cur]
  | String c s' =>
      if is_separator sep0 sep1 c then
        if (cur =? "")%string then split_segments sep0 sep1 s' ""
        else cur :: split_segments sep0 sep1 s' ""
      else split_segments sep0 sep1 s' (cur ++ String c "")
  end.

(** Modelled from the spec: the body of [extract] (section 4.4).  Without a
    leading [sep0] the whole input is the only segment. *)
Definition extract (dollartext : string) (sep0 sep1 : ascii) : list string :=
  match dollartext with
  | String c rest =>
      if (c =? sep0)%char then split_segments sep0 sep1 rest "" else [dollartext]
  | EmptyString => [dollartext]
  end.

(** The canonical key of a reference: its segments joined by a dot. *)
Definition canonical_key (segments : list string) : string := String.concat "." segments.

(** Identifier-class characters: letters, digits, the dot and the underscore. *)
Definition is_identifier_char (c : ascii) : bool :=
  let n := nat_of_ascii c in
  ((97 <=? n) && (n <=? 122))%nat || ((65 <=? n) && (n <=? 90))%nat ||
  ((48 <=? n) && (n <=? 57))%nat || (c =? ".")%char || (c =? "_")%char.

Fixpoint is_identifier (s : string) : bool :=
  match s with
  | EmptyString => true
  | String c s' => is_identifier_char c && is_identifier s'
  end.

(** A scanned text: literal characters and delimited references. *)
Inductive piece : Type :=
| Lit (c : ascii)
| Ref (reference : string).

(** The left-to-right scan for the separator ['$']; [cur] is the reference
    being extended across identifier characters, if any. *)
Fixpoint pieces (s : string) (cur : option string) : list piece :=
  match s with
  | EmptyString =>
      match cur with
      | Some r => [Ref r]
      | None => []
      end
  | String c s' =>
      match cur with
      | Some r =>
          if is_identifier_char c then pieces s' (Some (r ++ String c ""))
          else if (c =? "$")%char then Ref r :: pieces s' (Some "$")
          else Ref r :: Lit c :: pieces s' None
      | None =>
          if (c =? "$")%char then pieces s' (Some "$")
          else Lit c :: pieces s' None
      end
  end.

Definition guarded (key : string) (guards : list string) : bool :=
  existsb (String.eqb key) guards.

Definition translation : Type := option (store * string).

(** The canonical key of a delimited reference: [extract], then the
    segments joined. *)
Definition reference_key (reference : string) : string :=
  canonical_key (extract reference "$" Matches.NUL).

(** What one pass leaves: the store, the output, the keys it expanded (the
    latest first) and whether one of them was met in the guard chain. *)
Record scanned : Type := Scanned {
  store_after : store;
  output : string;
  expanded : list string;
  cycle : bool
}.

(** One left-to-right pass over the scanned text: a literal is copied, a
    reference is resolved through [extract] and [locate] and replaced by the
    value of its slot. *)
Fixpoint pass (guards : list string) (ps : list piece) (st : store) (out : string)
    (keys : list string) (met : bool) : scanned :=
  match ps with
  | [] => Scanned st out keys met
  | Lit c :: ps' => pass guards ps' st (out ++ String c "") keys met
  | Ref r :: ps' =>
      let key := reference_key r in
      let (st1, value) := locate st key in
      pass guards ps' st1 (out ++ value) (key :: keys) (met || guarded key guards)
  end.

(** Modelled from the spec: the body of [translate] (section 4.5).  After a
    full pass the recursion ends when the output is the input, or when a key
    the pass expanded was in the guard chain (its reference keeps the stored
    value, unexpanded); otherwise [translate] is called again on the new
    output, the keys just expanded joining the chain.  [guards] is the chain
    of the recursion guards of the calls in progress; [fuel] bounds the depth
    of the recursion and [None] is an exhausted bound. *)
Fixpoint translate_fuel (fuel : nat) (st : store) (text : string) (guards : list string)
  : translation :=
  match fuel with
  | O => None
  | S fuel' =>
      let s := pass guards (pieces text None) st "" [] false in
      if (output s =? text)%string then Some (store_after s, output s)
      else if cycle s then Some (store_after s, output s)
      else translate_fuel fuel' (store_after s) (output s) (expanded s ++ guards)
  end.

(** The entries that hold a non-empty value, and how many of them are
    outside the guard chain: a bound on the depth still needed. *)
Definition live (st : store) : store :=
  filter (fun kv => negb (snd kv =? "")%string) st.

Definition unguarded (st : store) (guards : list string) : nat :=
  List.length (filter (fun kv => negb (guarded (fst kv) guards)) (live st)).

(** [translate( text )] with the default, empty guard. *)
Definition translate (st : store) (text : string) : translation :=
  translate_fuel (unguarded st [] + 2) st text [].

(** The value a name stands for in the store: the value of its first
    entry, the empty string when it has none. *)
Definition stored (st : store) (key value : string) : Prop :=
  (exists before after_,
      st = (before ++ (key, value) :: after_)%list /\ ~ In key (map fst before)) \/
  (~ In key (map fst st) /\ value = "").

(** A scanned text with every reference replaced by the stored value of
    its key and every literal kept. *)
Inductive substituted (st : store) : list piece -> string -> Prop :=
| substituted_end : substituted st [] ""
| substituted_lit c ps out :
    substituted st ps out -> substituted st (Lit c :: ps) (String c out)
| substituted_ref r ps value out :
    stored st (reference_key r) value ->
    substituted st ps out -> substituted st (Ref r :: ps) (value ++ out).

(** The text a scanned text was read from. *)
Fixpoint spelling (ps : list piece) : string :=
  match ps with
  | [] => ""
  | Lit c :: ps' => String c (spelling ps')
  | Ref r :: ps' => r ++ spelling ps'
  end.

(** A reference is the separator and the identifier characters after it. *)
Definition is_reference (r : string) : bool :=
  match r with
  | String d k => (d =? "$")%char && is_identifier k
  | EmptyString => false
  end.

(** A well delimited scanned text: no literal is the separator, every
    reference is one, and none stops before an identifier character. *)
Fixpoint delimited (ps : list piece) : bool :=
  match ps with
  | [] => true
  | Lit c :: ps' => negb (c =? "$")%char && delimited ps'
  | Ref r :: ps' =>
      is_reference r &&
      match ps' with
      | Lit c :: _ => negb (is_identifier_char c)
      | _ => true
      end && delimited ps'
  end.

(** The keys of the references of a scanned text, in order. *)
Fixpoint references (ps : list piece) : list string :=
  match ps with
  | [] => []
  | Lit _ :: ps' => references ps'
  | Ref r :: ps' => reference_key r :: references ps'
  end.

(** Whether a scanned text holds a reference whose key is in the chain. *)
Definition meets_guard (guards : list string) (ps : list piece) : bool :=
  existsb (fun key => guarded key guards) (references ps).

Fixpoint dollar_free (s : string) : bool :=
  match s with
  | EmptyString => true
  | String c s' => negb (c =? "$")%char && dollar_free s'
  end.

End Translate.

(** ** wire::eval

    [wire.hpp] declares [eval] (line 79); its body is not part of the
    header.  It is modelled from section 4.6 of the specification: tokens,
    one token of lookahead, one function per precedence level.  A [double]
    is a binary64 float. *)

Module Eval.

Inductive token : Type :=
| TNum (literal : string)
| TPlus | TMinus | TStar | TSlash | TCaret | TOpen | TClose.

Definition is_digit (c : ascii) : bool :=
  let n := nat_of_ascii c in ((48 <=? n) && (n <=? 57))%nat.

Definition is_exponent_mark (c : ascii) : bool := (c =? "e")%char || (c =? "E")%char.

Definition is_sign (c : ascii) : bool := (c =? "+")%char || (c =? "-")%char.

(** The shape of a decimal literal: digits, an optional fraction, an
    optional exponent. *)
Inductive literal_state : Type :=
| LStart | LInt | LPoint | LFrac | LExp | LExpSign | LExpDigits.

Definition literal_step (st : literal_state) (c : ascii) : option literal_state :=
  match st with
  | LStart => if is_digit c then Some LInt else None
  | LInt =>
      if is_digit c then Some LInt
      else if (c =? ".")%char then Some LPoint
      else if is_exponent_mark c then Some LExp else None
  | LPoint | LFrac =>
      if is_digit c then Some LFrac
      else if is_exponent_mark c then Some LExp else None
  | LExp =>
      if is_digit c then Some LExpDigits
      else if is_sign c then Some LExpSign else None
  | LExpSign | LExpDigits => if is_digit c then Some LExpDigits else None
  end.

Fixpoint literal_run (st : literal_state) (s : string) : option literal_state :=
  match s with
  | EmptyString => Some st
  | String c s' =>
      match literal_step st c with
      | Some st' => literal_run st' s'
      | None => None
      end
  end.

Definition is_number_literal (s : string) : bool :=
  match literal_run LStart s with
  | Some LInt | Some LPoint | Some LFrac | Some LExpDigits => true
  | _ => false
  end.

Definition operator_token (c : ascii) : option token :=
  if (c =? "+")%char then Some TPlus
  else if (c =? "-")%char then Some TMinus
  else if (c =? "*")%char then Some TStar
  else if (c =? "/")%char then Some TSlash
  else if (c =? "^")%char then Some TCaret
  else if (c =? "(")%char then Some TOpen
  else if (c =? ")")%char then Some TClose
  else None.

Fixpoint last_char (s : string) : option ascii :=
  match s with
  | EmptyString => None
  | String c EmptyString => Some c
  | String _ s' => last_char s'
  end.

(** Whether [c] continues the literal [cur] being read. *)
Definition extends_literal (cur : string) (c : ascii) : bool :=
  is_digit c || (c =? ".")%char ||
  match last_char cur with
  | Some l => is_exponent_mark c || (is_sign c && is_exponent_mark l)
  | None => false
  end.

Definition flush (cur : string) : option (list token) :=
  if (cur =? "")%string then Some []
  else if is_number_literal cur then Some [TNum cur] else None.

(** The tokens of an expression; [None] on a character that starts no
    token and on a literal of the wrong shape. *)
Fixpoint lex (s cur : string) : option (list token) :=
  match s with
  | EmptyString => flush cur
  | String c s' =>
      if extends_literal cur c then lex s' (cur ++ String c "")
      else
        match flush cur, operator_token c, lex s' "" with
        | Some pre, Some t, Some rest => Some (pre ++ t :: rest)%list
        | _, _, _ => None
        end
  end.

(** What a parsing function returns: a value and the tokens left, a
    syntax error, or an exhausted step budget. *)
Inductive outcome : Type :=
| Parsed (value : float) (rest : list token)
| SyntaxError
| OutOfFuel.

(** A run that reaches the result [r] with some step budget. *)
Definition converges (run : nat -> outcome) (r : outcome) : Prop :=
  exists f, run f = r /\ r <> OutOfFuel.

(** What may follow a derived list for the parser to stop after it. *)
Definition no_caret (rest : list token) : Prop :=
  match rest with
  | TCaret :: _ => False
  | _ => True
  end.

Definition no_factor_operator (rest : list token) : Prop :=
  match rest with
  | TCaret :: _ | TStar :: _ | TSlash :: _ => False
  | _ => True
  end.

Section Parser.
(** The C library: the value of a literal and the power function. *)
Variable strtod : string -> float.
Variable pow : float -> float -> float.

(** Modelled from the spec: the body of [eval] (section 4.6), one
    function per precedence level, lowest first, and one per loop over
    operators of the same level. *)
Fixpoint parse_summands (fuel : nat) (ts : list token) {struct fuel} : outcome :=
  match fuel with
  | O => OutOfFuel
  | S f =>
      match parse_factors f ts with
      | Parsed v rest => summands_loop f v rest
      | other => other
      end
  end
with summands_loop (fuel : nat) (acc : float) (ts : list token) {struct fuel} : outcome :=
  match fuel with
  | O => OutOfFuel
  | S f =>
      match ts with
      | TPlus :: ts' =>
          match parse_factors f ts' with
          | Parsed v rest => summands_loop f (PrimFloat.add acc v) rest
          | other => other
          end
      | TMinus :: ts' =>
          match parse_factors f ts' with
          | Parsed v rest => summands_loop f (PrimFloat.sub acc v) rest
          | other => other
          end
      | _ => Parsed acc ts
      end
  end
with parse_factors (fuel : nat) (ts : list token) {struct fuel} : outcome :=
  match fuel with
  | O => OutOfFuel
  | S f =>
      match parse_power f ts with
      | Parsed v rest => factors_loop f v rest
      | other => other
      end
  end
with factors_loop (fuel : nat) (acc : float) (ts : list token) {struct fuel} : outcome :=
  match fuel with
  | O => OutOfFuel
  | S f =>
      match ts with
      | TStar :: ts' =>
          match parse_power f ts' with
          | Parsed v rest => factors_loop f (PrimFloat.mul acc v) rest
          | other => other
          end
      | TSlash :: ts' =>
          match parse_power f ts' with
          | Parsed v rest => factors_loop f (PrimFloat.div acc v) rest
          | other => other
          end
      | _ => Parsed acc ts
      end
  end
with parse_power (fuel : nat) (ts : list token) {struct fuel} : outcome :=
  match fuel with
  | O => OutOfFuel
  | S f =>
      match parse_unary f ts with
      | Parsed base (TCaret :: ts') =>
          match parse_power f ts' with
          | Parsed exponent rest => Parsed (pow base exponent) rest
          | other => other
          end
      | other => other
      end
  end
with parse_unary (fuel : nat) (ts : list token) {struct fuel} : outcome :=
  match fuel with
  | O => OutOfFuel
  | S f =>
      match ts with
      | TMinus :: ts' =>
          match parse_unary f ts' with
          | Parsed v rest => Parsed (PrimFloat.opp v) rest
          | other => other
          end
      | _ => parse_atom f ts
      end
  end
with parse_atom (fuel : nat) (ts : list token) {struct fuel} : outcome :=
  match fuel with
  | O => OutOfFuel
  | S f =>
      match ts with
      | TNum literal :: rest => Parsed (strtod literal) rest
      | TPlus :: TNum literal :: rest => Parsed (strtod literal) rest
      | TOpen :: ts' =>
          match parse_summands f ts' with
          | Parsed v (TClose :: rest) => Parsed v rest
          | Parsed _ _ => SyntaxError
          | other => other
          end
      | _ => SyntaxError
      end
  end.

(** [eval( expression )]: the value when the whole input is one
    expression, the not-a-number sentinel otherwise. *)
Definition eval (expression : string) : float :=
  match lex expression "" with
  | None => nan
  | Some ts =>
      match parse_summands (5 * List.length ts + 5) ts with
      | Parsed v [] => v
      | _ => nan
      end
  end.

(** Completeness of a level: a derived list followed by admissible tokens
    is parsed up to those tokens. *)
Definition complete_summands (e : list token) : Prop :=
  forall rest, no_factor_operator rest ->
  exists v, forall r,
    converges (fun f => summands_loop f v rest) r ->
    converges (fun f => parse_summands f (e ++ rest)%list) r.

Definition complete_factors (t : list token) : Prop :=
  forall rest, no_caret rest ->
  exists v, forall r,
    converges (fun f => factors_loop f v rest) r ->
    converges (fun f => parse_factors f (t ++ rest)%list) r.

Definition complete_power (p : list token) : Prop :=
  forall rest, no_caret rest ->
  exists v, converges (fun f => parse_power f (p ++ rest)%list) (Parsed v rest).

Definition complete_unary (u : list token) : Prop :=
  forall rest,
  exists v, converges (fun f => parse_unary f (u ++ rest)%list) (Parsed v rest).

Definition complete_atom (a : list token) : Prop :=
  forall rest,
  exists v, converges (fun f => parse_atom f (a ++ rest)%list) (Parsed v rest).

End Parser.

(** The grammar of section 4.6 on token lists. *)
Inductive wf_summands : list token -> Prop :=
| wf_summands_one t : wf_factors t -> wf_summands t
| wf_summands_plus e t : wf_summands e -> wf_factors t -> wf_summands (e ++ TPlus :: t)
| wf_summands_minus e t : wf_summands e -> wf_factors t -> wf_summands (e ++ TMinus :: t)
with wf_factors : list token -> Prop :=
| wf_factors_one p : wf_power p -> wf_factors p
| wf_factors_star t p : wf_factors t -> wf_power p -> wf_factors (t ++ TStar :: p)
| wf_factors_slash t p : wf_factors t -> wf_power p -> wf_factors (t ++ TSlash :: p)
with wf_power : list token -> Prop :=
| wf_power_one u : wf_unary u -> wf_power u
| wf_power_caret u p : wf_unary u -> wf_power p -> wf_power (u ++ TCaret :: p)
with wf_unary : list token -> Prop :=
| wf_unary_minus u : wf_unary u -> wf_unary (TMinus :: u)
| wf_unary_atom a : wf_atom a -> wf_unary a
with wf_atom : list token -> Prop :=
| wf_atom_number literal : wf_atom [TNum literal]
| wf_atom_signed literal : wf_atom [TPlus; TNum literal]
| wf_atom_parens e : wf_summands e -> wf_atom (TOpen :: e ++ [TClose]).

(** A derived token list ends with a literal or a closing parenthesis. *)
Definition ends_operand (ts : list token) : Prop :=
  exists init l, ts = (init ++ [l])%list /\ (l = TClose \/ exists literal, l = TNum literal).

(** A parsing function consumes a derived prefix of its input. *)
Definition sound_parse (wf : list token -> Prop) (o : outcome) (ts : list token) : Prop :=
  forall v rest, o = Parsed v rest -> exists pre, ts = (pre ++ rest)%list /\ wf pre.

(** A loop consumes what extends a derived list to a derived list. *)
Definition sound_loop (wf : list token -> Prop) (o : outcome) (ts : list token) : Prop :=
  forall v rest, o = Parsed v rest ->
    exists pre, ts = (pre ++ rest)%list /\ forall e, wf e -> wf (e ++ pre)%list.

(** An expression string is well formed when it is a sequence of tokens
    derived by the grammar. *)
Definition well_formed (expression : string) : Prop :=
  exists ts, lex expression "" = Some ts /\ wf_summands ts.

(** Stand-ins for the C library on the inputs of the examples: the value of
    a literal made of digits only, and powers with a small natural
    exponent. *)
Fixpoint digits_value (s : string) (acc : float) : float :=
  match s with
  | EmptyString => acc
  | String c s' =>
      digits_value s'
        (PrimFloat.add (PrimFloat.mul acc 10)
           (PrimFloat.of_uint63 (Uint63.of_Z (Z.of_nat (nat_of_ascii c - 48)))))
  end.

Definition strtod_digits (literal : string) : float := digits_value literal 0.

Fixpoint pow_nat (base : float) (n : nat) : float :=
  match n with
  | O => 1
  | S n' => PrimFloat.mul base (pow_nat base n')
  end.

Definition pow_small (base exponent : float) : float :=
  match find (fun n => PrimFloat.eqb exponent (PrimFloat.of_uint63 (Uint63.of_Z (Z.of_nat n))))
             (seq 0 16) with
  | Some n => pow_nat base n
  | None => nan
  end.

End Eval.

(** ** wire::string: searching, slicing, case, ends *)

Module WString.

(** First index at which [target] starts in [s], counted from [pos] for the
    head of [s]. *)
Fixpoint find_in (target s : string) (pos : nat) : option nat :=
  if prefix target s then Some pos
  else
    match s with
    | EmptyString => None
    | String _ s' => find_in target s' (S pos)
    end.

(** [s.find( target, pos )] of [std::string]; [None] is [npos]. *)
Definition find (s target : string) (pos : nat) : option nat :=
  if (pos <=? length s)%nat then find_in target (drop pos s) pos else None.

(** [s.replace( pos, len, str )] of [std::string] for [pos + len <= size()]. *)
Definition std_replace (s : string) (pos len : nat) (str : string) : string :=
  substring 0 pos s ++ str ++ drop (pos + len) s.

Definition left_of (self substring_ : string) : string :=
  match find self substring_ 0 with
  | None => self
  | Some pos => substring 0 pos self
  end.

(** [substr( pos + 1 )] throws when [pos + 1] exceeds the size. *)
Definition right_of (self substring_ : string) : result string :=
  match find self substring_ 0 with
  | None => Ok self
  | Some pos =>
      if (pos + 1 <=? length self)%nat then Ok (drop (pos + 1) self) else OutOfRange
  end.

Definition replace1 (self target replacement : string) : string :=
  match find self target 0 with
  | None => self
  | Some found => std_replace self found (length target) replacement
  end.

(** The [while] of [replace]; [None] is an exhausted step budget. *)
Fixpoint replace_loop (fuel : nat) (s target replacement : string) (found : nat)
  : option string :=
  match fuel with
  | O => None
  | S fuel' =>
      match find s target found with
      | Some pos =>
          replace_loop fuel' (std_replace s pos (length target) replacement)
            target replacement (pos + length replacement)
      | None => Some s
      end
  end.

Definition replace (self target replacement : string) : option string :=
  replace_loop (S (length self)) self target replacement 0.

(** The [while] of [count]. *)
Fixpoint count_loop (fuel : nat) (self substr : string) (pos n : nat) : option nat :=
  match fuel with
  | O => None
  | S fuel' =>
      match find self substr pos with
      | Some p => count_loop fuel' self substr (p + length substr) (S n)
      | None => Some n
      end
  end.

Definition count (self substr : string) : option nat :=
  count_loop (S (length self)) self substr 0 0.

Definition starts_with (self prefix_ : string) : bool :=
  if (length prefix_ <=? length self)%nat
  then (substring 0 (length prefix_) self =? prefix_)%string
  else false.

Definition ends_with (self suffix : string) : bool :=
  if (length self <? length suffix)%nat then false
  else (drop (length self - length suffix) self =? suffix)%string.

(** [std::toupper] and [std::tolower] in the "C" locale. *)
Definition toupper (c : ascii) : ascii :=
  let n := nat_of_ascii c in
  if ((97 <=? n) && (n <=? 122))%nat then ascii_of_nat (n - 32) else c.

Definition tolower (c : ascii) : ascii :=
  let n := nat_of_ascii c in
  if ((65 <=? n) && (n <=? 90))%nat then ascii_of_nat (n + 32) else c.

(** [std::transform( s.begin(), s.end(), s.begin(), f )]. *)
Fixpoint transform (f : ascii -> ascii) (s : string) : string :=
  match s with
  | EmptyString => EmptyString
  | String c s' => String (f c) (transform f s')
  end.

Definition uppercase (self : string) : string := transform toupper self.
Definition lowercase (self : string) : string := transform tolower self.

Definition matchesi (self pattern : string) : bool :=
  Matches.matches (uppercase self) (uppercase pattern).

(** [erase( end() - 1 )] and [erase( 0, 1 )], guarded by [size()]. *)
Fixpoint remove_last (s : string) : string :=
  match s with
  | EmptyString => EmptyString
  | String _ EmptyString => EmptyString
  | String c s' => String c (remove_last s')
  end.

Definition pop_back (self : string) : string :=
  if (length self =? 0)%nat then self else remove_last self.

Definition pop_front (self : string) : string :=
  if (length self =? 0)%nat then self else drop 1 self.

(** [push_back] and [push_front] of one [char]. *)
Definition push_back (self : string) (t : ascii) : string := self ++ String t "".
Definition push_front (self : string) (t : ascii) : string := String t "" ++ self.

Definition back (self : string) : result ascii := At.at_ self (-1).
Definition front (self : string) : result ascii := At.at_ self 0.

(** [delimiters.find_first_of( ch ) != npos], and the 256-entry table of
    [tokenize]: whether [ch] is one of the bytes of [delimiters]. *)
Definition is_delimiter (delimiters : string) (ch : ascii) : bool :=
  existsb (Ascii.eqb ch) (list_ascii_of_string delimiters).

(** The [for] of [tokenize]; the deque [tokens] is held back first. *)
Fixpoint tokenize_loop (delimiters self : string) (tokens : list string) : list string :=
  match self with
  | EmptyString => tokens
  | String ch rest =>
      match tokens with
      | tokens_back :: front_ =>
          if negb (is_delimiter delimiters ch)
          then tokenize_loop delimiters rest ((tokens_back ++ String ch "") :: front_)
          else if negb (length tokens_back =? 0)%nat
          then tokenize_loop delimiters rest ("" :: tokens)
          else tokenize_loop delimiters rest tokens
      | [] => tokens
      end
  end.

(** [while( tokens.size() && !tokens.back().size() ) tokens.pop_back()]. *)
Fixpoint pop_empty (tokens : list string) : list string :=
  match tokens with
  | tokens_back :: front_ =>
      if (length tokens_back =? 0)%nat then pop_empty front_ else tokens
  | [] => []
  end.

Definition tokenize (self delimiters : string) : list string :=
  rev (pop_empty (tokenize_loop delimiters self [""])).

(** The [for] of [split]; [str] is the token being read and the deque
    [tokens] is held back first. *)
Fixpoint split_loop (delimiters self str : string) (tokens : list string)
  : string * list string :=
  match self with
  | EmptyString => (str, tokens)
  | String ch rest =>
      if is_delimiter delimiters ch then
        let tokens1 := if negb (length str =? 0)%nat then str :: tokens else tokens in
        split_loop delimiters rest "" (String ch "" :: tokens1)
      else split_loop delimiters rest (str ++ String ch "") tokens
  end.

Definition split (self delimiters : string) : list string :=
  let (str, tokens) := split_loop delimiters self "" [] in
  rev (if (length str =? 0)%nat then tokens else str :: tokens).

(** A token made of one delimiter, and a string without any delimiter. *)
Definition is_separator_token (delimiters token : string) : bool :=
  match token with
  | String c EmptyString => is_delimiter delimiters c
  | _ => false
  end.

Fixpoint delimiter_free (delimiters s : string) : bool :=
  match s with
  | EmptyString => true
  | String c s' => negb (is_delimiter delimiters c) && delimiter_free delimiters s'
  end.

End WString.

(** ** wire::ini *)

Module Ini.
Import WString.

Definition CRLF : string := String "013" (String "010" "").

(** [line.find_first_of( c )] of [std::string]; [None] is [npos]. *)
Fixpoint find_first_of (s : string) (c : ascii) (pos : nat) : option nat :=
  match s with
  | EmptyString => None
  | String x s' => if (x =? c)%char then Some pos else find_first_of s' c (S pos)
  end.

(** [line.substr( 0, line.find_first_of(';') )]. *)
Definition strip_comment (line : string) : string :=
  match find_first_of line ";" 0 with
  | Some p => substring 0 p line
  | None => line
  end.

(** The [for] of [load] over the lines; the result is the returned flag
    and the map as the call leaves it. *)
Fixpoint load_lines (lines : list string) (section : string) (m : smap) : bool * smap :=
  match lines with
  | [] => (true, m)
  | line :: lines' =>
      match split (strip_comment line) "[]=" with
      | [t0; t1; t2] =>
          if (t0 =? "[")%string && (t2 =? "]")%string then load_lines lines' t1 m
          else if (t1 =? "=")%string
          then load_lines lines' section (map_set (section ++ "." ++ t0) t2 m)
          else (false, m)
      | _ => (false, m)
      end
  end.

Definition load (text : string) : bool * smap :=
  load_lines (tokenize text CRLF) "" [].

(** The [for] of [save] over the entries in key order.  [kv[0]] and
    [kv[1]] index the deque unchecked: [None] stands for an access past its
    end. *)
Fixpoint save_entries (entries : smap) (section output : string) : option string :=
  match entries with
  | [] => Some output
  | (first, second) :: entries' =>
      match tokenize first "." with
      | kv0 :: kv1 :: _ =>
          let (section', output1) :=
            if negb (section =? kv0)%string
            then (kv0, output ++ (CRLF ++ "[") ++ kv0 ++ "]" ++ CRLF)
            else (section, output) in
          save_entries entries' section' (output1 ++ kv1 ++ "=" ++ second ++ CRLF)
      | _ => None
      end
  end.

Definition save_header : string := "; auto-generated by ini class".

Definition save (m : smap) : option string :=
  save_entries m "" (save_header ++ CRLF).

(** A name or value that [load] reads whole: not empty, and without any
    of the bytes that end a line, open a comment or separate tokens. *)
Definition plain (s : string) : bool :=
  negb (length s =? 0)%nat && delimiter_free "[]=" s &&
  delimiter_free CRLF s && delimiter_free ";" s.

End Ini.

(** ** wire::string::strip and its public forms *)

Module Strip.
Local Open Scope Z_scope.

(** Arithmetic of [std::string::size_type] (64 bits). *)
Definition wrap_size (z : Z) : Z := z mod 2 ^ 64.

(** [this->operator[]( k )] with a [size_type] argument: the argument is
    converted to the [int] parameter, then [at] is called. *)
Definition subscript (self : string) (k : Z) : result ascii :=
  At.at_ self (At.wrap_int k).

(** The test of the two branches: [std::isspace] when [chars] is empty,
    [std::memchr( sep, c, charslen )] otherwise. *)
Definition stripped (chars : string) (c : ascii) : bool :=
  if (String.length chars =? 0)%nat then As.is_space c
  else WString.is_delimiter chars c.

(** [while( i < len && test( this->operator[]( i ) ) ) i++]. *)
Fixpoint left_loop (fuel : nat) (self chars : string) (len i : Z) : option (result Z) :=
  match fuel with
  | O => None
  | S fuel' =>
      if i <? len then
        match subscript self i with
        | Ok c =>
            if stripped chars c then left_loop fuel' self chars len (wrap_size (i + 1))
            else Some (Ok i)
        | OutOfRange => Some OutOfRange
        end
      else Some (Ok i)
  end.

(** [do j--; while( j >= i && test( this->operator[]( j ) ) )]. *)
Fixpoint right_loop (fuel : nat) (self chars : string) (i j : Z) : option (result Z) :=
  match fuel with
  | O => None
  | S fuel' =>
      let j1 := wrap_size (j - 1) in
      if j1 >=? i then
        match subscript self j1 with
        | Ok c =>
            if stripped chars c then right_loop fuel' self chars i j1
            else Some (Ok j1)
        | OutOfRange => Some OutOfRange
        end
      else Some (Ok j1)
  end.

(** [std::string::substr( pos, n )]. *)
Definition substr (self : string) (pos n : Z) : result string :=
  if pos <=? Z.of_nat (String.length self)
  then Ok (substring (Z.to_nat pos) (Z.to_nat n) self)
  else OutOfRange.

(** The private [strip( chars, strip_left, strip_right )]; [None] is an
    exhausted step budget. *)
Definition strip_fuel (fuel : nat) (self chars : string) (strip_left strip_right : bool)
  : option (result string) :=
  let len := Z.of_nat (String.length self) in
  match (if strip_left then left_loop fuel self chars len 0 else Some (Ok 0)) with
  | Some (Ok i) =>
      match (if strip_right && negb (len =? 0)
             then option_map (result_map (fun j => wrap_size (j + 1)))
                             (right_loop fuel self chars i len)
             else Some (Ok len)) with
      | Some (Ok j) =>
          if wrap_size (j - i) =? len then Some (Ok self)
          else Some (substr self i (wrap_size (j - i)))
      | Some OutOfRange => Some OutOfRange
      | None => None
      end
  | Some OutOfRange => Some OutOfRange
  | None => None
  end.

Definition strip3 (self chars : string) (strip_left strip_right : bool)
  : option (result string) :=
  strip_fuel (S (String.length self)) self chars strip_left strip_right.

Definition lstrip (self chars : string) := strip3 self chars true false.
Definition rstrip (self chars : string) := strip3 self chars false true.
Definition strip (self chars : string) := strip3 self chars true true.

(** Every byte of [s] passes [p]. *)
Fixpoint all_chars (p : ascii -> bool) (s : string) : bool :=
  match s with
  | EmptyString => true
  | String c s' => p c && all_chars p s'
  end.

(** The byte at index [k], if any, passes the test. *)
Definition passes (self chars : string) (k : nat) : Prop :=
  forall c, get k self = Some c -> stripped chars c = true.

End Strip.

(** ** wire::string::formatsafe *)

Module Format.

(** The [for] of [formatsafe] over the bytes of [fmt].  The array [t] has
    [N] strings: [t[0]] is the output [out] and [t[1..N-1]] are [args].  A
    byte above [N] is copied, a byte [ch <= N] appends [t[ch]]; [None] is
    the read of [t[N]], one past the end of the array. *)
Fixpoint formatsafe_loop (N : nat) (fmt : string) (args : list string) (out : string)
  : option string :=
  match fmt with
  | EmptyString => Some out
  | String ch fmt' =>
      let n := nat_of_ascii ch in
      if (N <? n)%nat then formatsafe_loop N fmt' args (out ++ String ch "")
      else if (n =? 0)%nat then formatsafe_loop N fmt' args (out ++ out)
      else
        match nth_error args (n - 1) with
        | Some a => formatsafe_loop N fmt' args (out ++ a)
        | None => None
        end
  end.

(** [formatsafe( fmt, t )] as the constructors call it: [t[0]] empty and
    one string per argument. *)
Definition formatsafe (fmt : string) (args : list string) : option string :=
  formatsafe_loop (S (List.length args)) fmt args "".

End Format.

(** * Properties *)

(** ** std::string helpers *)

Lemma append_nil_r (s : string) : s ++ "" = s.
Proof. induction s as [|c s IH]; simpl; [reflexivity | now rewrite IH]. Qed.

Lemma append_assoc (a b c : string) : (a ++ b) ++ c = a ++ (b ++ c).
Proof. induction a as [|x a IH]; simpl; [reflexivity | now rewrite IH]. Qed.

Lemma length_append (a b : string) : length (a ++ b) = length a + length b.
Proof. induction a as [|x a IH]; simpl; [reflexivity | now rewrite IH]. Qed.

Lemma substring_shift (pre s : string) (j n : nat) :
  substring (length pre + j) n (pre ++ s) = substring j n s.
Proof. induction pre as [|c pre IH]; simpl; [reflexivity | exact IH]. Qed.

Lemma get_shift (pre s : string) (j : nat) :
  get (length pre + j) (pre ++ s) = get j s.
Proof. induction pre as [|c pre IH]; simpl; [reflexivity | exact IH]. Qed.

Lemma substring_0_split (n : nat) (s : string) :
  n <= length s -> s = substring 0 n s ++ drop n s.
Proof.
  revert s; induction n as [|n IH]; intros s Hn.
  - now destruct s.
  - destruct s as [|c s]; simpl in *; [lia|].
    f_equal. apply IH. lia.
Qed.

Lemma substring_0_length (n : nat) (s : string) :
  n <= length s -> length (substring 0 n s) = n.
Proof.
  revert s; induction n as [|n IH]; intros s Hn.
  - now destruct s.
  - destruct s as [|c s]; simpl in *; [lia|]. rewrite IH; lia.
Qed.

(** ** replace_map: the loop does not depend on what lies before [i] *)

Section ReplaceMapLoop.
Import ReplaceMap.

Lemma prepend_prepend (a b : string) (x : option (result string)) :
  prepend a (prepend b x) = prepend (a ++ b) x.
Proof.
  destruct x as [[r|]|]; simpl; try reflexivity.
  now rewrite append_assoc.
Qed.

Lemma scan_rules_shift (pre s : string) (j : nat) (its : list (string * string)) :
  scan_rules (pre ++ s) (length pre + j) its = scan_rules s j its.
Proof.
  induction its as [|[t r] its IH]; simpl; [reflexivity|].
  rewrite length_append, substring_shift, IH.
  now replace (length pre + length s - (length pre + j)) with (length s - j) by lia.
Qed.

Lemma scan_rules_hit (self : string) (i : nat) (its : list (string * string)) (t r : string) :
  scan_rules self i its = Hit t r ->
  0 < length t /\ length t <= length self - i /\
  substring i (length t) self = t /\ In (t, r) its.
Proof.
  induction its as [|[t' r'] its IH]; simpl; [discriminate|].
  destruct (Nat.leb_spec (length t') (length self - i)) as [Hle|Hgt].
  - destruct t' as [|c t'].
    + discriminate.
    + destruct (String.eqb_spec (substring i (length (String c t')) self) (String c t')) as [He|Hne].
      * intros [= <- <-]. repeat split; simpl in *; try lia; auto.
      * intros H. destruct (IH H) as (?&?&?&?). auto.
  - intros H. destruct (IH H) as (?&?&?&?). auto.
Qed.

Lemma replace_map_loop_shift (fuel : nat) (pre s : string) (m : smap) (j : nat) (out : string) :
  replace_map_loop fuel (pre ++ s) m (length pre + j) out = replace_map_loop fuel s m j out.
Proof.
  revert j out; induction fuel as [|fuel IH]; intros j out; simpl; [reflexivity|].
  rewrite length_append, scan_rules_shift.
  replace (length pre + j <? length pre + length s)%nat with (j <? length s)%nat
    by (destruct (Nat.ltb_spec j (length s)), (Nat.ltb_spec (length pre + j) (length pre + length s)); lia || reflexivity).
  destruct (j <? length s)%nat; [|reflexivity].
  destruct (scan_rules s j (rev m)) as [t r| |]; [| |reflexivity].
  - rewrite <- Nat.add_assoc. apply IH.
  - rewrite <- Nat.add_assoc, IH. unfold char_at. now rewrite get_shift.
Qed.

Lemma replace_map_loop_out (fuel : nat) (s : string) (m : smap) (i : nat) (out : string) :
  replace_map_loop fuel s m i out = prepend out (replace_map_loop fuel s m i "").
Proof.
  revert i out; induction fuel as [|fuel IH]; intros i out; simpl; [reflexivity|].
  destruct (i <? length s)%nat; [|simpl; now rewrite append_nil_r].
  destruct (scan_rules s i (rev m)) as [t r| |]; [| |reflexivity].
  - rewrite (IH _ (out ++ r)), (IH _ r). now rewrite prepend_prepend.
  - rewrite (IH _ (out ++ _)), (IH _ (char_at s i)). now rewrite prepend_prepend.
Qed.

Lemma replace_map_loop_S (fuel : nat) (s : string) (m : smap) (i : nat) (out : string) :
  replace_map_loop (S fuel) s m i out =
  if (i <? length s)%nat then
    match scan_rules s i (rev m) with
    | Hit target replacement =>
        replace_map_loop fuel s m (i + length target) (out ++ replacement)
    | Miss => replace_map_loop fuel s m (i + 1) (out ++ char_at s i)
    | Throw => Some OutOfRange
    end
  else Some (Ok out).
Proof. reflexivity. Qed.

Lemma replace_map_loop_more_fuel (fuel : nat) (s : string) (m : smap) (i : nat) (out : string) r :
  replace_map_loop fuel s m i out = Some r ->
  replace_map_loop (S fuel) s m i out = Some r.
Proof.
  revert i out; induction fuel as [|fuel IH]; intros i out; [discriminate|].
  intros H. simpl in H. change (replace_map_loop (S (S fuel)) s m i out) with
    (if (i <? length s)%nat then
       match scan_rules s i (rev m) with
       | Hit target replacement =>
           replace_map_loop (S fuel) s m (i + length target) (out ++ replacement)
       | Miss => replace_map_loop (S fuel) s m (i + 1) (out ++ char_at s i)
       | Throw => Some OutOfRange
       end
     else Some (Ok out)).
  destruct (i <? length s)%nat; [|exact H].
  destruct (scan_rules s i (rev m)) as [t r'| |]; [| |exact H]; now apply IH.
Qed.

Lemma replace_map_loop_total (fuel : nat) (s : string) (m : smap) (i : nat) (out : string) :
  length s - i < fuel ->
  exists r, replace_map_loop fuel s m i out = Some r.
Proof.
  revert i out; induction fuel as [|fuel IH]; intros i out Hf; [lia|].
  simpl. destruct (Nat.ltb_spec i (length s)) as [Hi|Hi]; [|eauto].
  destruct (scan_rules s i (rev m)) as [t r| |] eqn:Hs; [| |eauto].
  - apply scan_rules_hit in Hs. destruct Hs as (Hpos & _). apply IH. lia.
  - apply IH. lia.
Qed.

Lemma replace_map_loop_fuel (f1 f2 : nat) (s : string) (m : smap) (i : nat) (out : string) :
  length s - i < f1 -> length s - i < f2 ->
  replace_map_loop f1 s m i out = replace_map_loop f2 s m i out.
Proof.
  assert (Hle : forall a b, length s - i < a -> a <= b ->
                  replace_map_loop b s m i out = replace_map_loop a s m i out).
  { intros a b Ha Hab. destruct (replace_map_loop_total a s m i out Ha) as [r Hr].
    rewrite Hr. induction Hab as [|b _ IH]; [exact Hr|].
    now apply replace_map_loop_more_fuel. }
  intros H1 H2. destruct (Nat.le_ge_cases f1 f2) as [H|H].
  - symmetry. now apply Hle.
  - now apply Hle.
Qed.

End ReplaceMapLoop.

(** ** replace_map: unfolding equations on the text *)

Section ReplaceMapEquations.
Import ReplaceMap.

Lemma replace_map_empty (m : smap) : replace_map "" m = Some (Ok "").
Proof. reflexivity. Qed.

Lemma replace_map_total (s : string) (m : smap) :
  exists r, replace_map s m = Some r.
Proof. apply replace_map_loop_total. lia. Qed.

Lemma replace_map_hit (s : string) (m : smap) (t r : string) :
  scan_rules s 0 (rev m) = Hit t r ->
  replace_map s m = prepend r (replace_map (drop (length t) s) m).
Proof.
  intros Hs. pose proof (scan_rules_hit _ _ _ _ _ Hs) as (Hpos & Hle & Hsub & _).
  unfold replace_map at 1. simpl replace_map_loop.
  destruct (Nat.ltb_spec 0 (length s)) as [_|Hz]; [|lia].
  rewrite Hs. simpl.
  assert (Hsplit : s = t ++ drop (length t) s).
  { rewrite <- Hsub at 1. apply substring_0_split. lia. }
  set (rest := drop (length t) s) in *.
  rewrite Hsplit at 2. 
  replace (length t) with (length t + 0) at 1 by lia.
  rewrite replace_map_loop_shift, replace_map_loop_out.
  f_equal. unfold replace_map.
  apply replace_map_loop_fuel; [|lia].
  rewrite Hsplit, length_append. lia.
Qed.

Lemma replace_map_miss (c : ascii) (rest : string) (m : smap) :
  scan_rules (String c rest) 0 (rev m) = Miss ->
  replace_map (String c rest) m = prepend (String c "") (replace_map rest m).
Proof.
  intros Hs. unfold replace_map at 1.
  rewrite replace_map_loop_S, Hs.
  change (0 <? length (String c rest))%nat with true. cbv iota.
  change ("" ++ char_at (String c rest) 0) with (String c "").
  change (String c rest) with (String c "" ++ rest).
  change (0 + 1) with (length (String c "") + 0).
  rewrite replace_map_loop_shift, replace_map_loop_out.
  reflexivity.
Qed.

Lemma replace_map_throw (s : string) (m : smap) :
  s <> "" ->
  scan_rules s 0 (rev m) = Throw ->
  replace_map s m = Some OutOfRange.
Proof.
  intros Hne Hs. unfold replace_map. simpl.
  destruct s as [|c s]; [congruence|]. simpl. 
  simpl in Hs. now rewrite Hs.
Qed.

(** With no rule at all every position is copied. *)
Lemma replace_map_no_rules (s : string) : replace_map s [] = Some (Ok s).
Proof.
  induction s as [|c s IH]; [reflexivity|].
  rewrite replace_map_miss by reflexivity.
  now rewrite IH.
Qed.

End ReplaceMapEquations.

(** ** std::map: ordering facts *)

Section MapOrder.

Lemma key_lt_irrefl (k : string) : ~ key_lt k k.
Proof. apply (@StrictOrder_Irreflexive _ _ String_as_OT.lt_strorder). Qed.

Lemma key_lt_trans (a b c : string) : key_lt a b -> key_lt b c -> key_lt a c.
Proof. apply (@StrictOrder_Transitive _ _ String_as_OT.lt_strorder). Qed.

Lemma key_lt_asym (a b : string) : key_lt a b -> key_lt b a -> False.
Proof. intros H1 H2. exact (key_lt_irrefl a (key_lt_trans _ _ _ H1 H2)). Qed.

Lemma ascii_compare_refl (c : ascii) : Ascii_as_OT.compare c c = Eq.
Proof.
  destruct (Ascii_as_OT.compare_spec c c) as [_|H|H]; [reflexivity| |];
    exfalso; exact (@StrictOrder_Irreflexive _ _ Ascii_as_OT.lt_strorder c H).
Qed.

(** A pattern is below each of its proper extensions. *)
Lemma key_lt_proper_prefix (p q : string) : q <> "" -> key_lt p (p ++ q).
Proof.
  intros Hq. unfold key_lt, String_as_OT.lt.
  induction p as [|c p IH]; simpl.
  - destruct q; [congruence | reflexivity].
  - now rewrite ascii_compare_refl.
Qed.

Lemma sorted_split (l1 l2 : list string) (x : string) :
  StronglySorted key_lt (l1 ++ x :: l2)%list ->
  Forall (fun y => key_lt y x) l1 /\ Forall (key_lt x) l2.
Proof.
  induction l1 as [|y l1 IH]; simpl; intros H.
  - apply StronglySorted_inv in H. split; [constructor | tauto].
  - apply StronglySorted_inv in H. destruct H as [Hs Hall].
    destruct (IH Hs) as [H1 H2]. split; [|assumption].
    constructor; [|assumption].
    rewrite Forall_forall in Hall. apply Hall, in_or_app. right; now left.
Qed.




End MapOrder.

(** ** replace_map: which rule is applied at a scan position *)

Section ReplaceMapPriority.
Import ReplaceMap.

Lemma length_drop (n : nat) (s : string) : length (drop n s) = length s - n.
Proof.
  revert s; induction n as [|n IH]; intros [|c s]; simpl; auto.
Qed.

Lemma starts_at_empty (self : string) (i : nat) : starts_at self i "" = true.
Proof.
  unfold starts_at. simpl.
  replace (substring i 0 self) with "".
  - reflexivity.
  - revert i; induction self as [|c s IH]; intros [|i]; simpl; auto.
Qed.

Lemma starts_at_bounds (self : string) (i : nat) (t : string) :
  starts_at self i t = true -> t <> "" -> i + length t <= length self /\ i < length self.
Proof.
  unfold starts_at. intros H Hne. apply andb_prop in H. destruct H as [H _].
  apply Nat.leb_le in H. destruct t; [congruence|]. simpl in *. lia.
Qed.

Lemma scan_rules_cons_hit (self : string) (i : nat) (t r : string) l :
  t <> "" -> starts_at self i t = true ->
  scan_rules self i ((t, r) :: l) = Hit t r.
Proof.
  unfold starts_at. intros Hne H. apply andb_prop in H. destruct H as [H1 H2].
  simpl. rewrite H1. destruct t as [|c t]; [congruence|]. now rewrite H2.
Qed.

Lemma scan_rules_skip (self : string) (i : nat) (l1 l2 : list (string * string)) :
  (forall t r, In (t, r) l1 -> starts_at self i t = false) ->
  scan_rules self i (l1 ++ l2)%list = scan_rules self i l2.
Proof.
  induction l1 as [|[t r] l1 IH]; intros H; [reflexivity|].
  assert (Ht : starts_at self i t = false) by (apply (H t r); now left).
  assert (Hne : t <> "") by (intros ->; rewrite starts_at_empty in Ht; discriminate).
  simpl. unfold starts_at in Ht.
  destruct (length t <=? length self - i)%nat; simpl in Ht.
  - destruct t as [|c t]; [congruence|]. rewrite Ht. apply IH.
    intros t' r' Hin. apply (H t' r'). now right.
  - apply IH. intros t' r' Hin. apply (H t' r'). now right.
Qed.

Lemma scan_rules_hit_split (self : string) (i : nat) (its : list (string * string)) t r :
  scan_rules self i its = Hit t r ->
  exists l1 l2, its = (l1 ++ (t, r) :: l2)%list /\
                forall t' r', In (t', r') l1 -> starts_at self i t' = false.
Proof.
  induction its as [|[t0 r0] its IH]; simpl; [discriminate|].
  intros H.
  assert (Hcase : (Hit t0 r0 = Hit t r /\ t0 <> "") \/
                  (starts_at self i t0 = false /\ scan_rules self i its = Hit t r)).
  { unfold starts_at. destruct (length t0 <=? length self - i)%nat; simpl; [|now right].
    destruct t0 as [|c t0]; [discriminate|].
    destruct (substring i (length (String c t0)) self =? String c t0)%string.
    - left. split; [assumption | discriminate].
    - now right. }
  destruct Hcase as [[[= -> ->] _]|[Hno Hrec]].
  - exists [], its. split; [reflexivity|]. intros ? ? [].
  - destruct (IH Hrec) as (l1 & l2 & -> & Hall).
    exists ((t0, r0) :: l1), l2. split; [reflexivity|].
    intros t' r' [[= <- <-]|Hin]; eauto.
Qed.

(** In a well-formed map the rule applied at position [i] is the one with
    the greatest key among those starting at [i]. *)
Lemma scan_rules_greatest_key (m : smap) (self : string) (i : nat) (t r : string) :
  map_ok m ->
  scan_rules self i (rev m) = Hit t r <->
  In (t, r) m /\ t <> "" /\ starts_at self i t = true /\
  forall t' r', In (t', r') m -> key_lt t t' -> starts_at self i t' = false.
Proof.
  intros Hok. split.
  - intros Hs. pose proof (scan_rules_hit _ _ _ _ _ Hs) as (Hpos & Hle & Hsub & Hin).
    repeat split.
    + now apply in_rev.
    + intros ->. simpl in Hpos. lia.
    + unfold starts_at. apply andb_true_intro. split.
      * now apply Nat.leb_le.
      * now apply String.eqb_eq.
    + intros t' r' Hin' Hlt.
      destruct (scan_rules_hit_split _ _ _ _ _ Hs) as (l1 & l2 & Hrev & Hall).
      assert (Hm : m = (rev l2 ++ (t, r) :: rev l1)%list).
      { rewrite <- (rev_involutive m), Hrev, rev_app_distr. simpl.
        now rewrite <- app_assoc. }
      unfold map_ok in Hok. rewrite Hm, map_app in Hok. simpl in Hok.
      apply sorted_split in Hok. destruct Hok as [Hbelow _].
      rewrite Hm in Hin'. apply in_app_or in Hin'. destruct Hin' as [Hin'|[[= <- <-]|Hin']].
      * exfalso. rewrite Forall_forall in Hbelow.
        apply (key_lt_asym t t'); [assumption|].
        apply Hbelow. apply (in_map fst) in Hin'. exact Hin'.
      * exfalso. exact (key_lt_irrefl _ Hlt).
      * apply (Hall t' r'). now apply in_rev.
  - intros (Hin & Hne & Hst & Hgreater).
    apply in_split in Hin. destruct Hin as (A & B & ->).
    rewrite rev_app_distr. simpl. rewrite <- app_assoc. simpl.
    rewrite scan_rules_skip.
    + now apply scan_rules_cons_hit.
    + intros t' r' Hin'. apply in_rev in Hin'.
      apply (Hgreater t' r').
      * apply in_or_app. right. now right.
      * unfold map_ok in Hok. rewrite map_app in Hok. simpl in Hok.
        apply sorted_split in Hok. destruct Hok as [_ Habove].
        rewrite Forall_forall in Habove. apply Habove.
        apply (in_map fst) in Hin'. exact Hin'.
Qed.


End ReplaceMapPriority.

(** ** replace_map: priority, empty patterns, a second pass *)

Section ReplaceMapSpec.
Import ReplaceMap.




Lemma scan_rules_throw (self : string) (i : nat) (its : list (string * string)) :
  scan_rules self i its = Throw -> exists r, In ("", r) its.
Proof.
  induction its as [|[t r] its IH]; simpl; [discriminate|].
  destruct (length t <=? length self - i)%nat.
  - destruct t as [|c t].
    + intros _. exists r. now left.
    + destruct (substring i (length (String c t)) self =? String c t)%string; [discriminate|].
      intros H. destruct (IH H) as [r' Hr']. eauto.
  - intros H. destruct (IH H) as [r' Hr']. eauto.
Qed.

(** Without an empty pattern in the map nothing is thrown: every text has
    an output. *)
Lemma replace_map_without_empty_pattern (self : string) (m : smap) :
  (forall r, ~ In ("", r) m) ->
  exists out, replace_map self m = Some (Ok out).
Proof.
  intros Hm. unfold replace_map.
  assert (H : forall fuel i out, length self - i < fuel ->
            exists out', replace_map_loop fuel self m i out = Some (Ok out')).
  { induction fuel as [|fuel IH]; intros i out Hf; [lia|].
    rewrite replace_map_loop_S.
    destruct (Nat.ltb_spec i (length self)) as [Hi|Hi]; [|eauto].
    destruct (scan_rules self i (rev m)) as [t r| |] eqn:Hs.
    - apply scan_rules_hit in Hs. destruct Hs as (Hpos & _). apply IH. lia.
    - apply IH. lia.
    - apply scan_rules_throw in Hs. destruct Hs as [r Hr].
      apply in_rev in Hr. now apply Hm in Hr. }
  apply H. lia.
Qed.

(** C5.  On the empty input the output is empty for every rule set, but an
    empty pattern is neither rejected nor skipped: when it is reached,
    [target.at(0)] throws [std::out_of_range] and no output is produced. *)
Theorem replace_map_empty_pattern_throws :
  (forall m, replace_map "" m = Some (Ok "")) /\
  replace_map "a" (register [("", "x")]) = Some OutOfRange /\
  replace_map "ab" (register [("", "x"); ("a", "y")]) = Some OutOfRange.
Proof. repeat split. Qed.

(** Whatever other rules the map holds, a pattern is never applied at a
    position where one of its proper extensions in the map starts. *)
Lemma replace_map_shorter_prefix_loses
    (m : smap) (p q r1 r2 self : string) (i : nat) :
  map_ok m -> q <> "" -> In (p ++ q, r2) m ->
  starts_at self i (p ++ q) = true ->
  scan_rules self i (rev m) <> Hit p r1.
Proof.
  intros Hok Hq Hin Hst Hs.
  apply scan_rules_greatest_key in Hs; [|assumption].
  destruct Hs as (_ & _ & _ & Hgreater).
  rewrite (Hgreater _ _ Hin (key_lt_proper_prefix p q Hq)) in Hst. discriminate.
Qed.



(** C8.  A pass with the empty rule set leaves the result of a pass
    unchanged: [substitute(substitute(text, rules), {})] is
    [substitute(text, rules)] (a throwing first pass throws in both). *)
Theorem replace_map_then_no_rules (text : string) (m : smap) :
  and_then (replace_map text m) (fun r => replace_map r []) = replace_map text m.
Proof.
  destruct (replace_map text m) as [[r|]|]; simpl; try reflexivity.
  apply replace_map_no_rules.
Qed.

End ReplaceMapSpec.

(** ** matches *)

Section MatchesSpec.
Import Matches.

Example matches_star : matches "hello.txt" "h*.t?t" = true.
Proof. reflexivity. Qed.

Example matches_empty_question : matches "" "?" = false.
Proof. reflexivity. Qed.

(** C4 (as the code has it).  A pattern byte [x] other than [*] (and other
    than the terminator) consumes exactly one byte [c] of the text: for [?]
    any byte except the dot ['.'], otherwise the byte [x] itself; at the end
    of the text neither matches. *)
Theorem matches_one_character (x c : ascii) (text pattern : string) :
  x <> "*"%char -> x <> NUL ->
  matches (String c text) (String x pattern) =
    (if (x =? "?")%char then negb (c =? NUL)%char && negb (c =? ".")%char
     else (c =? x)%char) && matches text pattern
  /\ matches "" (String x pattern) = false.
Proof.
  intros Hstar Hnul. unfold matches. simpl.
  apply Ascii.eqb_neq in Hstar. apply Ascii.eqb_neq in Hnul.
  rewrite Hstar, Hnul.
  destruct (x =? "?")%char; split; reflexivity.
Qed.

Lemma matches_one_character_witness :
  matches "a.c" "?.c" =
    (if ("?" =? "?")%char then negb ("a" =? NUL)%char && negb ("a" =? ".")%char
     else ("a" =? "?")%char) && matches ".c" ".c"
  /\ matches "" "?.c" = false.
Proof.
  apply (matches_one_character "?" "a" ".c" ".c"); discriminate.
Defined.

(** C4 fails as stated: [?] matches a line feed, which separates lines, and
    does not match a dot, which separates neither lines nor records. *)
Lemma matches_question_counterexample :
  is_record_or_line_separator "010" = true /\
  matches (String "010" "") "?" = true /\
  is_record_or_line_separator "." = false /\
  matches "." "?" = false.
Proof. repeat split. Qed.

End MatchesSpec.

(** ** at *)

Section AtSpec.
Import At.
Local Open Scope Z_scope.

Lemma wrap_int_id (z : Z) : int_min <= z <= int_max -> wrap_int z = z.
Proof.
  unfold wrap_int, int_min, int_max. intros H.
  rewrite Z.mod_small; lia.
Qed.

Lemma circular_index_mod (size pos : Z) :
  0 < size <= int_max -> int_min <= pos <= int_max ->
  circular_index size pos = pos mod size.
Proof.
  unfold circular_index, int_min, int_max. intros Hsize Hpos.
  destruct (Z.geb_spec pos 0) as [Hge|Hlt].
  - apply Z.rem_mod_nonneg; lia.
  - rewrite (wrap_int_id (pos + 1)) by (unfold int_min, int_max; lia).
    rewrite (wrap_int_id (size - 1)) by (unfold int_min, int_max; lia).
    assert (Hrem : Z.rem (pos + 1) size = - ((- (pos + 1)) mod size)).
    { replace (pos + 1) with (- (- (pos + 1))) at 1 by lia.
      rewrite Z.rem_opp_l by lia. rewrite Z.rem_mod_nonneg by lia. reflexivity. }
    rewrite Hrem.
    pose proof (Z.mod_pos_bound (- (pos + 1)) size ltac:(lia)) as Hb.
    rewrite wrap_int_id by (unfold int_min, int_max; lia).
    apply (Z.mod_unique pos size (- ((- (pos + 1)) / size) - 1)); [lia|].
    pose proof (Z.div_mod (- (pos + 1)) size ltac:(lia)). lia.
Qed.

Lemma get_in_range (s : string) (n : nat) :
  (n < String.length s)%nat -> exists c, get n s = Some c.
Proof.
  revert n; induction s as [|c s IH]; intros n Hn; simpl in *; [lia|].
  destruct n as [|n]; [eauto|]. apply IH. lia.
Qed.

(** C9.  Circular indexing never fails: on a non-empty string [at(pos)] is
    the byte at index [pos] modulo the length (the mathematical modulus, so
    [at(-1)] is the last byte), and on the empty string it is a NUL. *)
Theorem at_circular (self : string) (pos : Z) :
  Z.of_nat (String.length self) <= int_max ->
  int_min <= pos <= int_max ->
  (self = ""%string -> at_ self pos = Ok Matches.NUL) /\
  (self <> ""%string ->
   exists c, get (Z.to_nat (pos mod Z.of_nat (String.length self))) self = Some c /\
             at_ self pos = Ok c).
Proof.
  intros Hlen Hpos. split.
  - intros ->. reflexivity.
  - intros Hne. unfold at_.
    assert (Hsz : 0 < Z.of_nat (String.length self))
      by (destruct self; [congruence | simpl; lia]).
    rewrite wrap_int_id by (unfold int_min, int_max in *; lia).
    destruct (Z.eqb_spec (Z.of_nat (String.length self)) 0) as [H0|_]; [lia|].
    rewrite circular_index_mod by lia.
    pose proof (Z.mod_pos_bound pos _ Hsz) as Hb.
    unfold std_at.
    destruct (Z.leb_spec 0 (pos mod Z.of_nat (String.length self))); [|lia].
    destruct (Z.ltb_spec (pos mod Z.of_nat (String.length self)) (Z.of_nat (String.length self))); [|lia].
    simpl. destruct (get_in_range self (Z.to_nat (pos mod Z.of_nat (String.length self)))) as [c Hc]; [lia|].
    exists c. now rewrite Hc.
Qed.

Lemma at_circular_witness :
  ("hello"%string = ""%string -> at_ "hello" (-1) = Ok Matches.NUL) /\
  ("hello"%string <> ""%string ->
   exists c, get (Z.to_nat ((-1) mod Z.of_nat (String.length "hello"))) "hello" = Some c /\
             at_ "hello" (-1) = Ok c).
Proof.
  apply (at_circular "hello" (-1)); unfold int_min, int_max; simpl; lia.
Defined.

Example at_hello_5 : at_ "hello" 5 = Ok "h"%char.
Proof. reflexivity. Qed.

Example at_hello_minus_1 : at_ "hello" (-1) = Ok "o"%char.
Proof. reflexivity. Qed.

End AtSpec.

(** ** as *)

Section AsSpec.
Import As.

Example as_int_number : as_int " -42abc" = (-42)%Z.
Proof. reflexivity. Qed.

Example as_int_truthy : as_int "yes" = 1%Z /\ as_int "false" = 0%Z /\ as_int "" = 0%Z.
Proof. repeat split. Qed.

Lemma is_true_spec (self : string) :
  is_true self = true <-> self <> "" /\ self <> "0" /\ self <> "false".
Proof.
  unfold is_true. rewrite !andb_true_iff, !negb_true_iff, !String.eqb_neq.
  rewrite Nat.eqb_neq. destruct self; simpl; intuition congruence.
Qed.

(** C7 (as the code has it).  For the primary template, which serves the
    integer, floating-point and boolean targets, the stream extraction is
    tried first and its value returned; when it fails, [""], ["0"] and
    ["false"] convert as false and every other string as true.  A character
    target follows the same rule through [as<int>] only for strings whose
    length is not 1. *)
Theorem as_parse_then_truthy
    (T : Type) (extract : string -> option T) (of_bool : bool -> T) (self : string) :
  (forall t, extract self = Some t -> as_ extract of_bool self = t) /\
  (extract self = None -> self = "" \/ self = "0" \/ self = "false" ->
   as_ extract of_bool self = of_bool false) /\
  (extract self = None -> self <> "" -> self <> "0" -> self <> "false" ->
   as_ extract of_bool self = of_bool true) /\
  (length self <> 1 -> as_char self = char_of_int (as_ extract_int int_of_bool self)).
Proof.
  unfold as_. repeat split.
  - intros t ->. reflexivity.
  - intros -> H. f_equal. apply not_true_is_false. rewrite is_true_spec. tauto.
  - intros -> H1 H2 H3. f_equal. apply is_true_spec. tauto.
  - intros H. unfold as_char. apply Nat.eqb_neq in H. now rewrite H.
Qed.

Lemma as_parse_then_truthy_witness :
  extract_int "on" = None /\ as_ extract_int int_of_bool "on" = int_of_bool true.
Proof.
  split; [reflexivity|].
  apply (proj1 (proj2 (proj2 (as_parse_then_truthy Z extract_int int_of_bool "on"))));
    [reflexivity | discriminate | discriminate | discriminate].
Defined.

(** C7 fails as stated for a character target: ["5"] parses as the number 5
    and ["x"] is a true string, yet [as<char>] returns the bytes ['5'] and
    ['x']. *)
Lemma as_char_counterexample :
  extract_int "5" = Some 5%Z /\ as_char "5" = "5"%char /\
  as_char "5" <> char_of_int 5 /\
  extract_int "x" = None /\ is_true "x" = true /\ as_char "x" = "x"%char /\
  as_char "x" <> char_of_int (int_of_bool true).
Proof. repeat split; discriminate. Qed.

(** C10.  For a character target a string of exactly one byte converts to
    that byte, whatever it is; every other string goes through [as<int>]
    (the integer extraction, then the truthiness rule) and is truncated to a
    byte. *)
Theorem as_char_single_character (self : string) :
  as_char self =
  match self with
  | String c EmptyString => c
  | _ => char_of_int
           match extract_int self with
           | Some n => n
           | None => int_of_bool (is_true self)
           end
  end.
Proof.
  destruct self as [|c [|d s]]; reflexivity.
Qed.

Example as_char_examples :
  as_char "7" = "7"%char /\ as_char "65" = "A"%char /\
  as_char "" = "000"%char /\ as_char "yes" = "001"%char.
Proof. repeat split. Qed.

End AsSpec.

(** ** translate *)

Section TranslateSpec.
Import Translate.

Example translate_assigned :
  translate (assign [] "a" "5") "$a" = Some ([("a", "5")], "5").
Proof. reflexivity. Qed.

Example translate_unassigned :
  translate [] "x$a." = Some ([("a.", "")], "x").
Proof. reflexivity. Qed.

Example translate_cycle :
  translate [("a", "$b"); ("b", "$a")] "<$a>" = Some ([("a", "$b"); ("b", "$a")], "<$b>").
Proof. reflexivity. Qed.

Example translate_chain :
  translate [("a", "$"); ("b", "c"); ("c", "Z")] "$a$b" =
  Some ([("a", "$"); ("b", "c"); ("c", "Z")], "Z").
Proof. reflexivity. Qed.

Lemma locate_live (st : store) (name : string) :
  live (fst (locate st name)) = live st.
Proof. unfold locate. now destruct (lookup st name). Qed.

Lemma lookup_in_live (st : store) (name v : string) :
  lookup st name = Some v -> v <> "" -> In (name, v) (live st).
Proof.
  induction st as [|[k w] st IH]; simpl; [discriminate|].
  destruct (String.eqb_spec k name) as [->|Hne].
  - intros [= ->] Hv. apply String.eqb_neq in Hv. rewrite Hv. now left.
  - intros H Hv. destruct (w =? "")%string; simpl; auto.
Qed.

Lemma locate_nonempty (st : store) (name : string) :
  snd (locate st name) <> "" -> In (name, snd (locate st name)) (live st).
Proof.
  unfold locate. destruct (lookup st name) as [v|] eqn:H; simpl.
  - now apply lookup_in_live.
  - congruence.
Qed.

Lemma unguarded_live (st st' : store) (guards : list string) :
  live st' = live st -> unguarded st' guards = unguarded st guards.
Proof. unfold unguarded. now intros ->. Qed.

Lemma guarded_app (k : string) (keys guards : list string) :
  guarded k (keys ++ guards)%list = guarded k keys || guarded k guards.
Proof. apply existsb_app. Qed.

Lemma guarded_in (key : string) (keys : list string) :
  In key keys -> guarded key keys = true.
Proof.
  intros H. apply existsb_exists. exists key. split; [assumption|apply String.eqb_refl].
Qed.

(** Handing the keys of a pass to the chain lowers the number of unguarded
    live entries as soon as one of them is live and was not guarded. *)
Lemma unguarded_decreases (st : store) (key v : string) (keys guards : list string) :
  In (key, v) (live st) -> guarded key guards = false -> In key keys ->
  unguarded st (keys ++ guards)%list < unguarded st guards.
Proof.
  unfold unguarded. generalize (live st) as l. intros l Hin Hg Hk.
  assert (Hle : forall l' : store,
            List.length (filter (fun kv => negb (guarded (fst kv) (keys ++ guards)%list)) l')
            <= List.length (filter (fun kv => negb (guarded (fst kv) guards)) l')).
  { induction l' as [|[k' w'] l' IH']; cbn [filter fst]; [lia|].
    rewrite guarded_app.
    destruct (guarded k' keys); destruct (guarded k' guards);
      cbn [negb orb List.length]; lia. }
  induction l as [|[k w] l IH]; [contradiction|].
  cbn [filter fst]. rewrite guarded_app.
  destruct Hin as [[= -> ->]|Hin].
  - rewrite (guarded_in _ _ Hk), Hg. cbn [negb orb List.length]. specialize (Hle l). lia.
  - specialize (IH Hin). specialize (Hle l).
    destruct (guarded k keys); destruct (guarded k guards);
      cbn [negb orb List.length]; lia.
Qed.

Lemma pass_live (guards : list string) (ps : list piece) :
  forall st out keys met, live (store_after (pass guards ps st out keys met)) = live st.
Proof.
  induction ps as [|[c|r] ps IH]; intros st out keys met; cbn [pass store_after]; auto.
  pose proof (locate_live st (reference_key r)) as Hl.
  destruct (locate st (reference_key r)) as [st1 value]. simpl in Hl.
  now rewrite IH.
Qed.

Lemma pass_expanded (guards : list string) (ps : list piece) :
  forall st out keys met,
    expanded (pass guards ps st out keys met) = (rev (references ps) ++ keys)%list.
Proof.
  induction ps as [|[c|r] ps IH]; intros st out keys met;
    cbn [pass expanded references rev]; auto.
  destruct (locate st (reference_key r)) as [st1 value].
  rewrite IH, <- app_assoc. reflexivity.
Qed.

Lemma pass_cycle (guards : list string) (ps : list piece) :
  forall st out keys met,
    cycle (pass guards ps st out keys met) = met || meets_guard guards ps.
Proof.
  unfold meets_guard.
  induction ps as [|[c|r] ps IH]; intros st out keys met;
    cbn [pass cycle references existsb]; auto using orb_false_r.
  destruct (locate st (reference_key r)) as [st1 value].
  rewrite IH. now rewrite orb_assoc.
Qed.

Lemma lookup_some (st : store) (key v : string) :
  lookup st key = Some v ->
  exists before after_,
    st = (before ++ (key, v) :: after_)%list /\ ~ In key (map fst before).
Proof.
  induction st as [|[k w] st IH]; cbn [lookup]; [discriminate|].
  destruct (String.eqb_spec k key) as [->|Hne].
  - intros [= ->]. exists [], st. split; [reflexivity|intros []].
  - intros H. destruct (IH H) as (before & after_ & -> & Hnot).
    exists ((k, w) :: before), after_. split; [reflexivity|].
    cbn [map fst In]. intros [?|?]; [now apply Hne|now apply Hnot].
Qed.

Lemma lookup_none (st : store) (key : string) :
  lookup st key = None -> ~ In key (map fst st).
Proof.
  induction st as [|[k w] st IH]; cbn [lookup map fst In]; [intros _ []|].
  destruct (String.eqb_spec k key) as [->|Hne]; [discriminate|].
  intros H [?|?]; [now apply Hne|now apply (IH H)].
Qed.

(** The stored value of a name is what [lookup] finds, or the empty string. *)
Lemma lookup_stored (st : store) (key : string) :
  stored st key (match lookup st key with Some v => v | None => "" end).
Proof.
  destruct (lookup st key) as [v|] eqn:H.
  - left. now apply lookup_some.
  - right. split; [now apply lookup_none|reflexivity].
Qed.

Lemma lookup_skip (before : store) (key : string) (rest : store) :
  ~ In key (map fst before) -> lookup (before ++ rest)%list key = lookup rest key.
Proof.
  induction before as [|[k w] before IH]; cbn [app lookup map fst In]; [reflexivity|].
  intros Hnot. destruct (String.eqb_spec k key) as [->|Hne].
  - exfalso. apply Hnot. now left.
  - apply IH. intros H. apply Hnot. now right.
Qed.

Lemma stored_lookup (st : store) (key value : string) :
  stored st key value ->
  value = match lookup st key with Some v => v | None => "" end.
Proof.
  intros [(before & after_ & -> & Hnot)|[Hnot ->]].
  - rewrite lookup_skip by assumption. cbn [lookup]. now rewrite String.eqb_refl.
  - replace st with (st ++ [])%list by apply app_nil_r.
    now rewrite lookup_skip by assumption.
Qed.

Lemma stored_iff (st : store) (key value : string) :
  stored st key value <->
  value = match lookup st key with Some v => v | None => "" end.
Proof.
  split; [apply stored_lookup|]. intros ->. apply lookup_stored.
Qed.

Lemma locate_stored (st : store) (key : string) :
  stored st key (snd (locate st key)).
Proof.
  rewrite stored_iff. unfold locate. now destruct (lookup st key).
Qed.

(** Creating the slot of a missing name changes no stored value. *)
Lemma locate_keeps (st : store) (name key value : string) :
  stored (fst (locate st name)) key value <-> stored st key value.
Proof.
  rewrite !stored_iff. unfold locate.
  destruct (lookup st name) as [v|] eqn:Hl; cbn [fst]; [reflexivity|].
  cbn [lookup]. destruct (String.eqb_spec name key) as [->|Hne]; [|reflexivity].
  now rewrite Hl.
Qed.

Lemma pass_stored (guards : list string) (ps : list piece) :
  forall st out keys met key value,
    stored (store_after (pass guards ps st out keys met)) key value <-> stored st key value.
Proof.
  induction ps as [|[c|r] ps IH]; intros st out keys met key value;
    cbn [pass store_after]; [reflexivity|apply IH|].
  pose proof (locate_keeps st (reference_key r) key value) as Hk.
  destruct (locate st (reference_key r)) as [st1 v]. cbn [fst] in Hk.
  now rewrite IH.
Qed.

Lemma substituted_stored (st st' : store) (ps : list piece) (out : string) :
  (forall key value, stored st' key value <-> stored st key value) ->
  substituted st' ps out -> substituted st ps out.
Proof.
  intros Hs H. induction H; constructor; auto. now apply Hs.
Qed.

(** A pass appends the text with every reference replaced by its stored
    value. *)
Lemma pass_output (guards : list string) (ps : list piece) :
  forall st out keys met,
    exists o, output (pass guards ps st out keys met) = out ++ o /\ substituted st ps o.
Proof.
  induction ps as [|[c|r] ps IH]; intros st out keys met; cbn [pass output].
  - exists "". split; [now rewrite append_nil_r|constructor].
  - destruct (IH st (out ++ String c "") keys met) as (o & Ho & Hsub).
    exists (String c o). split; [|now constructor].
    rewrite Ho, append_assoc. reflexivity.
  - pose proof (locate_stored st (reference_key r)) as Hv.
    pose proof (fun key value => locate_keeps st (reference_key r) key value) as Hk.
    destruct (locate st (reference_key r)) as [st1 value]. cbn [fst snd] in Hv, Hk.
    destruct (IH st1 (out ++ value) (reference_key r :: keys)
                 (met || guarded (reference_key r) guards)) as (o & Ho & Hsub).
    exists (value ++ o). split.
    + rewrite Ho, append_assoc. reflexivity.
    + constructor; [assumption|]. now apply (substituted_stored st st1).
Qed.

Lemma substituted_unique (st : store) (ps : list piece) (o1 o2 : string) :
  substituted st ps o1 -> substituted st ps o2 -> o1 = o2.
Proof.
  intros H1. revert o2. induction H1; intros o2 H2; inversion H2; subst.
  - reflexivity.
  - f_equal. auto.
  - f_equal; [|auto].
    match goal with
    | Ha : stored st _ value, Hb : stored st _ ?w |- value = ?w =>
        apply stored_lookup in Ha; apply stored_lookup in Hb; congruence
    end.
Qed.

Lemma dollar_free_app (a b : string) :
  dollar_free (a ++ b) = dollar_free a && dollar_free b.
Proof.
  induction a as [|c a IH]; cbn [append dollar_free]; [reflexivity|].
  now rewrite IH, andb_assoc.
Qed.

(** The scan never leaves a separator among the literals. *)
Lemma pieces_lits (s : string) :
  forall cur c, In (Lit c) (pieces s cur) -> (c =? "$")%char = false.
Proof.
  induction s as [|a s IH]; intros cur c; cbn [pieces].
  - destruct cur; cbn [In]; [intros [H|[]]; discriminate H|intros []].
  - destruct cur as [r|].
    + destruct (is_identifier_char a); [apply IH|].
      destruct (a =? "$")%char eqn:Ha; cbn [In].
      * intros [H|H]; [discriminate H|now apply IH in H].
      * intros [H|[H|H]]; [discriminate H|now injection H as <-|now apply IH in H].
    + destruct (a =? "$")%char eqn:Ha; cbn [In]; [apply IH|].
      intros [H|H]; [now injection H as <-|now apply IH in H].
Qed.

(** A text without separator is scanned into literals, and a pass copies it. *)
Lemma pass_dollar_free (guards : list string) (s : string) :
  dollar_free s = true ->
  forall st out keys met,
    pass guards (pieces s None) st out keys met = Scanned st (out ++ s) keys met.
Proof.
  induction s as [|c s IH]; cbn [dollar_free pieces]; intros Hs st out keys met.
  - cbn [pass]. now rewrite append_nil_r.
  - apply andb_prop in Hs. destruct Hs as [Hc Hs].
    apply negb_true_iff in Hc. rewrite Hc. cbn [pass].
    rewrite (IH Hs), append_assoc. reflexivity.
Qed.

(** The output of a pass holds no separator, unless the pass expanded a
    live entry. *)
Lemma pass_dollar_free_or_live (guards : list string) (ps : list piece) :
  (forall c, In (Lit c) ps -> (c =? "$")%char = false) ->
  forall st out keys met,
    dollar_free out = true ->
    dollar_free (output (pass guards ps st out keys met)) = true \/
    exists key v, In key (references ps) /\ In (key, v) (live st).
Proof.
  induction ps as [|[c|r] ps IH]; intros Hlits st out keys met Hout;
    cbn [pass output references].
  - now left.
  - destruct (IH (fun c' H => Hlits c' (or_intror H)) st (out ++ String c "") keys met)
      as [H|(key & v & Hk & Hv)].
    + rewrite dollar_free_app, Hout. cbn [dollar_free andb].
      rewrite (Hlits c (or_introl eq_refl)). reflexivity.
    + now left.
    + right. eauto.
  - pose proof (locate_live st (reference_key r)) as Hl.
    pose proof (locate_nonempty st (reference_key r)) as Hne.
    destruct (locate st (reference_key r)) as [st1 value]. cbn [fst snd] in Hl, Hne.
    destruct (String.eqb_spec value "") as [->|Hv].
    + destruct (IH (fun c' H => Hlits c' (or_intror H)) st1 (out ++ "")
                   (reference_key r :: keys) (met || guarded (reference_key r) guards))
        as [H|(key & v & Hk & Hin)].
      * now rewrite append_nil_r.
      * now left.
      * right. exists key, v. split; [now right|]. now rewrite <- Hl.
    + right. exists (reference_key r), value. split; [now left|auto].
Qed.

Lemma identifier_char_not_separator (c : ascii) :
  is_identifier_char c = true -> is_separator "$" Matches.NUL c = false.
Proof.
  intros H. unfold is_separator. simpl.
  destruct (Ascii.eqb_spec c "$") as [->|]; [discriminate H | reflexivity].
Qed.

Lemma split_identifier (key cur : string) :
  is_identifier key = true ->
  canonical_key (split_segments "$" Matches.NUL key cur) = cur ++ key.
Proof.
  revert cur; induction key as [|c key IH]; intros cur; simpl.
  - intros _. rewrite append_nil_r. destruct cur; reflexivity.
  - intros H. apply andb_prop in H. destruct H as [Hc Hk].
    rewrite (identifier_char_not_separator c Hc), IH by assumption.
    now rewrite append_assoc.
Qed.

(** The key of a reference is the identifier after the separator. *)
Lemma reference_key_identifier (key : string) :
  is_identifier key = true -> reference_key ("$" ++ key) = key.
Proof.
  intros H. unfold reference_key, extract. cbn [append].
  change ("$" =? "$")%char with true. cbv iota.
  now rewrite split_identifier.
Qed.

Lemma is_reference_app (r : string) (c : ascii) :
  is_reference r = true -> is_identifier_char c = true ->
  is_reference (r ++ String c "") = true.
Proof.
  destruct r as [|d k]; [discriminate|]. cbn [is_reference append].
  intros H Hc. apply andb_prop in H. destruct H as [-> Hk]. cbn [andb].
  induction k as [|e k IH]; cbn [append is_identifier] in *.
  - now rewrite Hc.
  - apply andb_prop in Hk. destruct Hk as [-> Hk]. now apply IH.
Qed.

Lemma pieces_some_head (s : string) :
  forall r, exists r' tl, pieces s (Some r) = Ref r' :: tl.
Proof.
  induction s as [|a s IH]; intros r; cbn [pieces]; [eauto|].
  destruct (is_identifier_char a); [apply IH|].
  destruct (a =? "$")%char; eauto.
Qed.

(** The scan loses no character. *)
Lemma pieces_spelling (s : string) :
  forall cur,
    spelling (pieces s cur) = match cur with Some r => r ++ s | None => s end.
Proof.
  induction s as [|a s IH]; intros [r|]; cbn [pieces spelling]; try reflexivity.
  - destruct (is_identifier_char a); [now rewrite IH, append_assoc|].
    destruct (Ascii.eqb_spec a "$") as [->|Hne]; cbn [spelling]; now rewrite IH.
  - destruct (Ascii.eqb_spec a "$") as [->|Hne]; cbn [spelling]; now rewrite IH.
Qed.

Lemma delimited_ref (r : string) (ps : list piece) :
  delimited (Ref r :: ps) =
  is_reference r &&
  match ps with
  | Lit c :: _ => negb (is_identifier_char c)
  | _ => true
  end && delimited ps.
Proof. reflexivity. Qed.

Lemma delimited_lit (c : ascii) (ps : list piece) :
  delimited (Lit c :: ps) = negb (c =? "$")%char && delimited ps.
Proof. reflexivity. Qed.

(** The scan delimits every reference, and extends it as far as it can. *)
Lemma pieces_delimited (s : string) :
  forall cur,
    match cur with Some r => is_reference r = true | None => True end ->
    delimited (pieces s cur) = true.
Proof.
  induction s as [|a s IH]; intros [r|] H; cbn [pieces].
  - rewrite delimited_ref, H. reflexivity.
  - reflexivity.
  - destruct (is_identifier_char a) eqn:Hid; [now apply IH, is_reference_app|].
    destruct (a =? "$")%char eqn:Ha.
    + pose proof (IH (Some "$") eq_refl) as Hd.
      destruct (pieces_some_head s "$") as (r' & tl & E).
      rewrite E in Hd |- *. rewrite delimited_ref, H, Hd. reflexivity.
    + rewrite delimited_ref, delimited_lit, H, Hid, Ha, (IH None I). reflexivity.
  - destruct (a =? "$")%char eqn:Ha; [now apply IH|].
    rewrite delimited_lit, Ha, (IH None I). reflexivity.
Qed.

Lemma translate_fuel_S (fuel : nat) (st : store) (text : string) (guards : list string) :
  translate_fuel (S fuel) st text guards =
  let s := pass guards (pieces text None) st "" [] false in
  if (output s =? text)%string then Some (store_after s, output s)
  else if cycle s then Some (store_after s, output s)
  else translate_fuel fuel (store_after s) (output s) (expanded s ++ guards)%list.
Proof. reflexivity. Qed.

(** Enough depth gives a result, and the store keeps its live entries. *)
Lemma translate_fuel_total (fuel : nat) :
  forall st text guards,
    unguarded st guards + 2 <= fuel \/ (dollar_free text = true /\ 1 <= fuel) ->
    exists st' out, translate_fuel fuel st text guards = Some (st', out) /\ live st' = live st.
Proof.
  induction fuel as [|fuel IH]; intros st text guards Hfuel; [lia|].
  rewrite translate_fuel_S.
  destruct Hfuel as [Hfuel|[Hfree _]].
  - set (ps := pieces text None).
    pose proof (pass_live guards ps st "" [] false) as Hlive.
    pose proof (pass_cycle guards ps st "" [] false) as Hcycle.
    pose proof (pass_expanded guards ps st "" [] false) as Hexp.
    pose proof (pass_dollar_free_or_live guards ps (pieces_lits text None)
                  st "" [] false eq_refl) as Hdich.
    cbv zeta.
    destruct (pass guards ps st "" [] false) as [st1 out keys met].
    cbn [store_after output expanded cycle] in *.
    destruct (out =? text)%string; [eauto|].
    destruct met; [eauto|].
    destruct (IH st1 out (keys ++ guards)%list) as (st' & out' & H & Hl).
    + destruct Hdich as [Hfree|(key & v & Hk & Hv)]; [right; split; [assumption|lia]|].
      left. symmetry in Hcycle. cbn [orb] in Hcycle. unfold meets_guard in Hcycle.
      assert (Hg : guarded key guards = false).
      { destruct (guarded key guards) eqn:Hg; [|reflexivity].
        assert (Hex : existsb (fun key => guarded key guards) (references ps) = true)
          by (apply existsb_exists; eauto).
        congruence. }
      assert (Hin : In key keys).
      { rewrite Hexp, app_nil_r. now apply in_rev in Hk. }
      pose proof (unguarded_decreases st key v keys guards Hv Hg Hin) as Hdec.
      rewrite (unguarded_live st st1 (keys ++ guards)%list Hlive). lia.
    + exists st', out'. split; [assumption|congruence].
  - rewrite (pass_dollar_free guards text Hfree). cbv zeta.
    cbn [store_after output append]. rewrite String.eqb_refl. eauto.
Qed.

Lemma translate_fuel_more (fuel : nat) :
  forall st text guards r,
    translate_fuel fuel st text guards = Some r ->
    translate_fuel (S fuel) st text guards = Some r.
Proof.
  induction fuel as [|fuel IH]; intros st text guards r; [discriminate|].
  rewrite (translate_fuel_S (S fuel)), (translate_fuel_S fuel). cbv zeta.
  destruct (output _ =? text)%string; [auto|].
  destruct (cycle _); [auto|]. apply IH.
Qed.

Lemma translate_fuel_stable (n fuel : nat) st text guards r :
  translate_fuel n st text guards = Some r -> n <= fuel ->
  translate_fuel fuel st text guards = Some r.
Proof.
  intros H Hle. induction Hle; [assumption|]. now apply translate_fuel_more.
Qed.

(** C2.  For every store, text and guard chain, [translate] returns: there
    is one store and one string that every sufficient depth yields, the
    depth needed being bounded by the number of live entries outside the
    chain, cyclic definitions or not.  Each call makes one pass, whose
    output is the text with every reference replaced by its stored value,
    no stored value being changed; when the pass changed nothing, or met a
    reference whose key is in the guard chain, that output, stored values
    unexpanded, is the result, and otherwise the result is that of
    [translate] on the output with the keys of the pass added to the chain.
    The scan loses no character of the text and delimits its references,
    each the separator and the longest run of identifier characters after
    it, and the key of such a reference is that run. *)
Theorem translate_terminates (st : store) (text : string) (guards : list string) :
  (exists st' out,
     (forall fuel, unguarded st guards + 2 <= fuel ->
                   translate_fuel fuel st text guards = Some (st', out)) /\
     (guards = [] -> translate st text = Some (st', out))) /\
  (exists st1 out,
     substituted st (pieces text None) out /\
     (forall key value, stored st1 key value <-> stored st key value) /\
     forall fuel,
       translate_fuel (S fuel) st text guards =
       if (out =? text)%string || meets_guard guards (pieces text None)
       then Some (st1, out)
       else translate_fuel fuel st1 out
              (rev (references (pieces text None)) ++ guards)%list) /\
  spelling (pieces text None) = text /\
  delimited (pieces text None) = true /\
  (forall key, is_identifier key = true -> reference_key ("$" ++ key) = key).
Proof.
  split; [|split; [|split; [|split]]].
  - destruct (translate_fuel_total (unguarded st guards + 2) st text guards
                (or_introl (le_n _))) as (st' & out & H & _).
    exists st', out. split.
    + intros fuel Hle. now apply (translate_fuel_stable _ _ _ _ _ _ H).
    + intros ->. exact H.
  - set (ps := pieces text None).
    destruct (pass_output guards ps st "" [] false) as (o & Ho & Hsub).
    cbn [append] in Ho.
    exists (store_after (pass guards ps st "" [] false)), o.
    split; [assumption|]. split; [apply pass_stored|].
    intros fuel. rewrite translate_fuel_S. cbv zeta. fold ps.
    rewrite Ho, pass_cycle, pass_expanded, app_nil_r. cbn [orb].
    destruct (o =? text)%string; reflexivity.
  - apply (pieces_spelling text None).
  - apply (pieces_delimited text None I).
  - apply reference_key_identifier.
Qed.

Lemma translate_terminates_witness :
  unguarded [("a", "$b"); ("b", "$a")] [] + 2 <= 4 /\
  (exists st' out,
     translate_fuel 4 [("a", "$b"); ("b", "$a")] "$a" [] = Some (st', out) /\
     translate [("a", "$b"); ("b", "$a")] "$a" = Some (st', out)) /\
  is_identifier "a.b_1" = true /\ reference_key ("$" ++ "a.b_1") = "a.b_1".
Proof.
  pose proof (translate_terminates [("a", "$b"); ("b", "$a")] "$a" [])
    as ((st' & out & Hfuel & Hdefault) & _ & _ & _ & Hkey).
  split; [vm_compute; lia|]. split.
  - exists st', out. split; [apply Hfuel; vm_compute; lia|apply Hdefault; reflexivity].
  - split; [reflexivity|apply Hkey; reflexivity].
Defined.

End TranslateSpec.

(** ** eval *)

Section EvalSpec.
Import Eval.

Example eval_precedence :
  eval strtod_digits pow_small "2+3*4" = 14%float /\
  eval strtod_digits pow_small "(2+3)*4" = 20%float /\
  eval strtod_digits pow_small "2^3^2" = 512%float /\
  eval strtod_digits pow_small "1/0" = infinity /\
  eval strtod_digits pow_small "-2^2" = 4%float.
Proof. repeat split. Qed.

Example eval_errors :
  eval strtod_digits pow_small "2+" = nan /\
  eval strtod_digits pow_small "(2+3" = nan /\
  eval strtod_digits pow_small "2+3)" = nan /\
  eval strtod_digits pow_small "2 3" = nan /\
  eval strtod_digits pow_small "" = nan.
Proof. repeat split. Qed.

Scheme wf_summands_mut := Minimality for wf_summands Sort Prop
  with wf_factors_mut := Minimality for wf_factors Sort Prop
  with wf_power_mut := Minimality for wf_power Sort Prop
  with wf_unary_mut := Minimality for wf_unary Sort Prop
  with wf_atom_mut := Minimality for wf_atom Sort Prop.

Combined Scheme wf_mutual from
  wf_summands_mut, wf_factors_mut, wf_power_mut, wf_unary_mut, wf_atom_mut.

Lemma ends_operand_app (a : list token) (t : token) (b : list token) :
  ends_operand b -> ends_operand (a ++ t :: b).
Proof.
  intros (init & l & -> & Hl). exists (a ++ t :: init)%list, l. split; [|assumption].
  now rewrite <- app_assoc.
Qed.

Lemma wf_ends_operand :
  (forall ts, wf_summands ts -> ends_operand ts) /\
  (forall ts, wf_factors ts -> ends_operand ts) /\
  (forall ts, wf_power ts -> ends_operand ts) /\
  (forall ts, wf_unary ts -> ends_operand ts) /\
  (forall ts, wf_atom ts -> ends_operand ts).
Proof.
  apply wf_mutual; intros; auto using ends_operand_app.
  - now apply (ends_operand_app [] TMinus).
  - exists [], (TNum literal). eauto.
  - exists [TPlus], (TNum literal). eauto.
  - exists (TOpen :: e), TClose. auto.
Qed.

Lemma wf_nonempty (ts : list token) : ends_operand ts -> ts <> [].
Proof. intros (init & l & -> & _). now destruct init. Qed.

Section ParserSound.
Variable strtod : string -> float.
Variable pow : float -> float -> float.

(** One unfolding of each parsing function. *)
Lemma parse_summands_S f ts :
  parse_summands strtod pow (S f) ts =
  match parse_factors strtod pow f ts with
  | Parsed v rest => summands_loop strtod pow f v rest
  | other => other
  end.
Proof. reflexivity. Qed.

Lemma summands_loop_S f acc ts :
  summands_loop strtod pow (S f) acc ts =
  match ts with
  | TPlus :: ts' =>
      match parse_factors strtod pow f ts' with
      | Parsed v rest => summands_loop strtod pow f (PrimFloat.add acc v) rest
      | other => other
      end
  | TMinus :: ts' =>
      match parse_factors strtod pow f ts' with
      | Parsed v rest => summands_loop strtod pow f (PrimFloat.sub acc v) rest
      | other => other
      end
  | _ => Parsed acc ts
  end.
Proof. reflexivity. Qed.

Lemma parse_factors_S f ts :
  parse_factors strtod pow (S f) ts =
  match parse_power strtod pow f ts with
  | Parsed v rest => factors_loop strtod pow f v rest
  | other => other
  end.
Proof. reflexivity. Qed.

Lemma factors_loop_S f acc ts :
  factors_loop strtod pow (S f) acc ts =
  match ts with
  | TStar :: ts' =>
      match parse_power strtod pow f ts' with
      | Parsed v rest => factors_loop strtod pow f (PrimFloat.mul acc v) rest
      | other => other
      end
  | TSlash :: ts' =>
      match parse_power strtod pow f ts' with
      | Parsed v rest => factors_loop strtod pow f (PrimFloat.div acc v) rest
      | other => other
      end
  | _ => Parsed acc ts
  end.
Proof. reflexivity. Qed.

Lemma parse_power_S f ts :
  parse_power strtod pow (S f) ts =
  match parse_unary strtod pow f ts with
  | Parsed base (TCaret :: ts') =>
      match parse_power strtod pow f ts' with
      | Parsed exponent rest => Parsed (pow base exponent) rest
      | other => other
      end
  | other => other
  end.
Proof. reflexivity. Qed.

Lemma parse_unary_S f ts :
  parse_unary strtod pow (S f) ts =
  match ts with
  | TMinus :: ts' =>
      match parse_unary strtod pow f ts' with
      | Parsed v rest => Parsed (PrimFloat.opp v) rest
      | other => other
      end
  | _ => parse_atom strtod pow f ts
  end.
Proof. reflexivity. Qed.

Lemma parse_atom_S f ts :
  parse_atom strtod pow (S f) ts =
  match ts with
  | TNum literal :: rest => Parsed (strtod literal) rest
  | TPlus :: TNum literal :: rest => Parsed (strtod literal) rest
  | TOpen :: ts' =>
      match parse_summands strtod pow f ts' with
      | Parsed v (TClose :: rest) => Parsed v rest
      | Parsed _ _ => SyntaxError
      | other => other
      end
  | _ => SyntaxError
  end.
Proof. reflexivity. Qed.

Lemma sound_loop_stop (wf : list token -> Prop) (acc : float) (ts : list token) :
  sound_loop wf (Parsed acc ts) ts.
Proof.
  intros v rest [= <- <-]. exists []. split; [reflexivity|].
  intros e He. now rewrite app_nil_r.
Qed.

Lemma parser_sound (fuel : nat) :
  (forall ts, sound_parse wf_summands (parse_summands strtod pow fuel ts) ts) /\
  (forall acc ts, sound_loop wf_summands (summands_loop strtod pow fuel acc ts) ts) /\
  (forall ts, sound_parse wf_factors (parse_factors strtod pow fuel ts) ts) /\
  (forall acc ts, sound_loop wf_factors (factors_loop strtod pow fuel acc ts) ts) /\
  (forall ts, sound_parse wf_power (parse_power strtod pow fuel ts) ts) /\
  (forall ts, sound_parse wf_unary (parse_unary strtod pow fuel ts) ts) /\
  (forall ts, sound_parse wf_atom (parse_atom strtod pow fuel ts) ts).
Proof.
  induction fuel as [|f (IHs & IHsl & IHf & IHfl & IHp & IHu & IHa)].
  { repeat split; intros; intros v rest H; discriminate H. }
  repeat split.
  - (* parse_summands *)
    intros ts v rest H. rewrite parse_summands_S in H.
    destruct (parse_factors strtod pow f ts) as [v1 r1| |] eqn:E; try discriminate.
    destruct (IHf _ _ _ E) as (p1 & -> & Hp1).
    destruct (IHsl _ _ _ _ H) as (p2 & -> & Hp2).
    exists (p1 ++ p2)%list. split; [now rewrite app_assoc|].
    apply Hp2. now constructor.
  - (* summands_loop *)
    intros acc ts. rewrite summands_loop_S.
    destruct ts as [|[l| | | | | | |] ts']; try apply sound_loop_stop.
    + intros v rest H.
      destruct (parse_factors strtod pow f ts') as [v1 r1| |] eqn:E; try discriminate.
      destruct (IHf _ _ _ E) as (p1 & -> & Hp1).
      destruct (IHsl _ _ _ _ H) as (p2 & -> & Hp2).
      exists (TPlus :: p1 ++ p2)%list. split; [simpl; now rewrite app_assoc|].
      intros e He.
      replace (e ++ TPlus :: p1 ++ p2)%list with ((e ++ TPlus :: p1) ++ p2)%list
        by (now rewrite <- app_assoc).
      apply Hp2. now constructor.
    + intros v rest H.
      destruct (parse_factors strtod pow f ts') as [v1 r1| |] eqn:E; try discriminate.
      destruct (IHf _ _ _ E) as (p1 & -> & Hp1).
      destruct (IHsl _ _ _ _ H) as (p2 & -> & Hp2).
      exists (TMinus :: p1 ++ p2)%list. split; [simpl; now rewrite app_assoc|].
      intros e He.
      replace (e ++ TMinus :: p1 ++ p2)%list with ((e ++ TMinus :: p1) ++ p2)%list
        by (now rewrite <- app_assoc).
      apply Hp2. now constructor.
  - (* parse_factors *)
    intros ts v rest H. rewrite parse_factors_S in H.
    destruct (parse_power strtod pow f ts) as [v1 r1| |] eqn:E; try discriminate.
    destruct (IHp _ _ _ E) as (p1 & -> & Hp1).
    destruct (IHfl _ _ _ _ H) as (p2 & -> & Hp2).
    exists (p1 ++ p2)%list. split; [now rewrite app_assoc|].
    apply Hp2. now constructor.
  - (* factors_loop *)
    intros acc ts. rewrite factors_loop_S.
    destruct ts as [|[l| | | | | | |] ts']; try apply sound_loop_stop.
    + intros v rest H.
      destruct (parse_power strtod pow f ts') as [v1 r1| |] eqn:E; try discriminate.
      destruct (IHp _ _ _ E) as (p1 & -> & Hp1).
      destruct (IHfl _ _ _ _ H) as (p2 & -> & Hp2).
      exists (TStar :: p1 ++ p2)%list. split; [simpl; now rewrite app_assoc|].
      intros e He.
      replace (e ++ TStar :: p1 ++ p2)%list with ((e ++ TStar :: p1) ++ p2)%list
        by (now rewrite <- app_assoc).
      apply Hp2. now constructor.
    + intros v rest H.
      destruct (parse_power strtod pow f ts') as [v1 r1| |] eqn:E; try discriminate.
      destruct (IHp _ _ _ E) as (p1 & -> & Hp1).
      destruct (IHfl _ _ _ _ H) as (p2 & -> & Hp2).
      exists (TSlash :: p1 ++ p2)%list. split; [simpl; now rewrite app_assoc|].
      intros e He.
      replace (e ++ TSlash :: p1 ++ p2)%list with ((e ++ TSlash :: p1) ++ p2)%list
        by (now rewrite <- app_assoc).
      apply Hp2. now constructor.
  - (* parse_power *)
    intros ts v rest H. rewrite parse_power_S in H.
    destruct (parse_unary strtod pow f ts) as [v1 r1| |] eqn:E; try discriminate.
    destruct (IHu _ _ _ E) as (p1 & -> & Hp1).
    assert (Hstop : Parsed v1 r1 = Parsed v rest ->
              exists pre, (p1 ++ r1)%list = (pre ++ rest)%list /\ wf_power pre).
    { intros [= <- <-]. exists p1. split; [reflexivity | now constructor]. }
    destruct r1 as [|[l| | | | | | |] r1']; auto.
    destruct (parse_power strtod pow f r1') as [v2 r2| |] eqn:E2; try discriminate.
    injection H as <- <-.
    destruct (IHp _ _ _ E2) as (p2 & -> & Hp2).
    exists (p1 ++ TCaret :: p2)%list. split.
    + rewrite <- app_assoc. reflexivity.
    + now constructor.
  - (* parse_unary *)
    intros ts v rest H. rewrite parse_unary_S in H.
    assert (Hatom : parse_atom strtod pow f ts = Parsed v rest ->
              exists pre, ts = (pre ++ rest)%list /\ wf_unary pre).
    { intros Ha. destruct (IHa _ _ _ Ha) as (p & -> & Hp).
      exists p. split; [reflexivity | now constructor]. }
    destruct ts as [|[l| | | | | | |] ts']; auto.
    destruct (parse_unary strtod pow f ts') as [v1 r1| |] eqn:E; try discriminate.
    injection H as <- <-.
    destruct (IHu _ _ _ E) as (p1 & -> & Hp1).
    exists (TMinus :: p1). split; [reflexivity | now constructor].
  - (* parse_atom *)
    intros ts v rest H. rewrite parse_atom_S in H.
    destruct ts as [|[l| | | | | | |] ts']; try discriminate.
    + injection H as <- <-. exists [TNum l]. split; [reflexivity | constructor].
    + destruct ts' as [|[l| | | | | | |] ts'']; try discriminate.
      injection H as <- <-. exists [TPlus; TNum l]. split; [reflexivity | constructor].
    + destruct (parse_summands strtod pow f ts') as [v1 r1| |] eqn:E; try discriminate.
      destruct r1 as [|[l| | | | | | |] r1']; try discriminate.
      injection H as <- <-.
      destruct (IHs _ _ _ E) as (p1 & -> & Hp1).
      exists (TOpen :: p1 ++ [TClose])%list. split.
      * simpl. now rewrite <- app_assoc.
      * now constructor.
Qed.

Lemma sound_parse_shorter (wf : list token -> Prop) (o : outcome) (ts : list token) v rest :
  (forall l, wf l -> ends_operand l) ->
  sound_parse wf o ts -> o = Parsed v rest ->
  List.length rest < List.length ts.
Proof.
  intros Hwf Hs Ho. destruct (Hs _ _ Ho) as (pre & -> & Hpre).
  apply Hwf, wf_nonempty in Hpre. rewrite List.length_app.
  destruct pre; [congruence | simpl; lia].
Qed.

Let wf_f := proj1 (proj2 wf_ends_operand).
Let wf_p := proj1 (proj2 (proj2 wf_ends_operand)).
Let wf_u := proj1 (proj2 (proj2 (proj2 wf_ends_operand))).

(** The step budget of [eval] is never exhausted: a result other than a
    value is a syntax error. *)
Lemma parser_fuel (fuel : nat) :
  (forall ts, 5 * List.length ts + 5 <= fuel ->
              parse_summands strtod pow fuel ts <> OutOfFuel) /\
  (forall acc ts, 5 * List.length ts + 5 <= fuel ->
                  summands_loop strtod pow fuel acc ts <> OutOfFuel) /\
  (forall ts, 5 * List.length ts + 4 <= fuel ->
              parse_factors strtod pow fuel ts <> OutOfFuel) /\
  (forall acc ts, 5 * List.length ts + 4 <= fuel ->
                  factors_loop strtod pow fuel acc ts <> OutOfFuel) /\
  (forall ts, 5 * List.length ts + 3 <= fuel ->
              parse_power strtod pow fuel ts <> OutOfFuel) /\
  (forall ts, 5 * List.length ts + 2 <= fuel ->
              parse_unary strtod pow fuel ts <> OutOfFuel) /\
  (forall ts, 5 * List.length ts + 1 <= fuel ->
              parse_atom strtod pow fuel ts <> OutOfFuel).
Proof.
  induction fuel as [|f (IHs & IHsl & IHf & IHfl & IHp & IHu & IHa)].
  { repeat split; intros; lia. }
  destruct (parser_sound f) as (Ss & _ & Sf & _ & Sp & Su & _).
  repeat split.
  - intros ts Hf. rewrite parse_summands_S.
    destruct (parse_factors strtod pow f ts) as [v1 r1| |] eqn:E; try discriminate.
    + pose proof (sound_parse_shorter _ _ _ _ _ wf_f (Sf ts) E). apply IHsl. lia.
    + apply (IHf ts) in E; [contradiction | lia].
  - intros acc ts Hf. rewrite summands_loop_S.
    destruct ts as [|[l| | | | | | |] ts']; try discriminate; simpl in Hf.
    + destruct (parse_factors strtod pow f ts') as [v1 r1| |] eqn:E; try discriminate.
      * pose proof (sound_parse_shorter _ _ _ _ _ wf_f (Sf ts') E). apply IHsl. lia.
      * apply (IHf ts') in E; [contradiction | lia].
    + destruct (parse_factors strtod pow f ts') as [v1 r1| |] eqn:E; try discriminate.
      * pose proof (sound_parse_shorter _ _ _ _ _ wf_f (Sf ts') E). apply IHsl. lia.
      * apply (IHf ts') in E; [contradiction | lia].
  - intros ts Hf. rewrite parse_factors_S.
    destruct (parse_power strtod pow f ts) as [v1 r1| |] eqn:E; try discriminate.
    + pose proof (sound_parse_shorter _ _ _ _ _ wf_p (Sp ts) E). apply IHfl. lia.
    + apply (IHp ts) in E; [contradiction | lia].
  - intros acc ts Hf. rewrite factors_loop_S.
    destruct ts as [|[l| | | | | | |] ts']; try discriminate; simpl in Hf.
    + destruct (parse_power strtod pow f ts') as [v1 r1| |] eqn:E; try discriminate.
      * pose proof (sound_parse_shorter _ _ _ _ _ wf_p (Sp ts') E). apply IHfl. lia.
      * apply (IHp ts') in E; [contradiction | lia].
    + destruct (parse_power strtod pow f ts') as [v1 r1| |] eqn:E; try discriminate.
      * pose proof (sound_parse_shorter _ _ _ _ _ wf_p (Sp ts') E). apply IHfl. lia.
      * apply (IHp ts') in E; [contradiction | lia].
  - intros ts Hf. rewrite parse_power_S.
    destruct (parse_unary strtod pow f ts) as [v1 r1| |] eqn:E; try discriminate.
    + pose proof (sound_parse_shorter _ _ _ _ _ wf_u (Su ts) E) as Hlt.
      destruct r1 as [|[l| | | | | | |] r1']; try discriminate.
      destruct (parse_power strtod pow f r1') as [v2 r2| |] eqn:E2; try discriminate.
      apply (IHp r1') in E2; [contradiction | simpl in Hlt; lia].
    + apply (IHu ts) in E; [contradiction | lia].
  - intros ts Hf. rewrite parse_unary_S.
    assert (Hatom : parse_atom strtod pow f ts <> OutOfFuel) by (apply IHa; lia).
    destruct ts as [|[l| | | | | | |] ts']; auto.
    destruct (parse_unary strtod pow f ts') as [v1 r1| |] eqn:E; try discriminate.
    apply (IHu ts') in E; [contradiction | simpl in Hf; lia].
  - intros ts Hf. rewrite parse_atom_S.
    destruct ts as [|[l| | | | | | |] ts']; try discriminate.
    + destruct ts' as [|[l| | | | | | |] ts'']; discriminate.
    + destruct (parse_summands strtod pow f ts') as [v1 r1| |] eqn:E; try discriminate.
      * destruct r1 as [|[l| | | | | | |] r1']; discriminate.
      * apply (IHs ts') in E; [contradiction | simpl in Hf; lia].
Qed.

(** More steps do not change a result. *)
Lemma parser_more_fuel (fuel : nat) :
  (forall ts r, parse_summands strtod pow fuel ts = r -> r <> OutOfFuel ->
                parse_summands strtod pow (S fuel) ts = r) /\
  (forall acc ts r, summands_loop strtod pow fuel acc ts = r -> r <> OutOfFuel ->
                    summands_loop strtod pow (S fuel) acc ts = r) /\
  (forall ts r, parse_factors strtod pow fuel ts = r -> r <> OutOfFuel ->
                parse_factors strtod pow (S fuel) ts = r) /\
  (forall acc ts r, factors_loop strtod pow fuel acc ts = r -> r <> OutOfFuel ->
                    factors_loop strtod pow (S fuel) acc ts = r) /\
  (forall ts r, parse_power strtod pow fuel ts = r -> r <> OutOfFuel ->
                parse_power strtod pow (S fuel) ts = r) /\
  (forall ts r, parse_unary strtod pow fuel ts = r -> r <> OutOfFuel ->
                parse_unary strtod pow (S fuel) ts = r) /\
  (forall ts r, parse_atom strtod pow fuel ts = r -> r <> OutOfFuel ->
                parse_atom strtod pow (S fuel) ts = r).
Proof.
  induction fuel as [|f (IHs & IHsl & IHf & IHfl & IHp & IHu & IHa)].
  { repeat split; intros; subst; simpl in *; congruence. }
  repeat split.
  - intros ts r H Hr. rewrite parse_summands_S in *.
    destruct (parse_factors strtod pow f ts) as [v1 r1| |] eqn:E; try congruence.
    + rewrite (IHf _ _ E) by discriminate. auto.
    + rewrite (IHf _ _ E) by discriminate. auto.
  - intros acc ts r H Hr. rewrite summands_loop_S in *.
    destruct ts as [|[l| | | | | | |] ts']; auto.
    + destruct (parse_factors strtod pow f ts') as [v1 r1| |] eqn:E; try congruence;
        rewrite (IHf _ _ E) by discriminate; auto.
    + destruct (parse_factors strtod pow f ts') as [v1 r1| |] eqn:E; try congruence;
        rewrite (IHf _ _ E) by discriminate; auto.
  - intros ts r H Hr. rewrite parse_factors_S in *.
    destruct (parse_power strtod pow f ts) as [v1 r1| |] eqn:E; try congruence;
      rewrite (IHp _ _ E) by discriminate; auto.
  - intros acc ts r H Hr. rewrite factors_loop_S in *.
    destruct ts as [|[l| | | | | | |] ts']; auto.
    + destruct (parse_power strtod pow f ts') as [v1 r1| |] eqn:E; try congruence;
        rewrite (IHp _ _ E) by discriminate; auto.
    + destruct (parse_power strtod pow f ts') as [v1 r1| |] eqn:E; try congruence;
        rewrite (IHp _ _ E) by discriminate; auto.
  - intros ts r H Hr. rewrite parse_power_S in *.
    destruct (parse_unary strtod pow f ts) as [v1 r1| |] eqn:E; try congruence;
      rewrite (IHu _ _ E) by discriminate; auto.
    destruct r1 as [|[l| | | | | | |] r1']; auto.
    destruct (parse_power strtod pow f r1') as [v2 r2| |] eqn:E2; try congruence;
      rewrite (IHp _ _ E2) by discriminate; auto.
  - intros ts r H Hr. rewrite parse_unary_S in *.
    destruct ts as [|[l| | | | | | |] ts']; auto.
    destruct (parse_unary strtod pow f ts') as [v1 r1| |] eqn:E; try congruence;
      rewrite (IHu _ _ E) by discriminate; auto.
  - intros ts r H Hr. rewrite parse_atom_S in *.
    destruct ts as [|[l| | | | | | |] ts']; auto.
    destruct (parse_summands strtod pow f ts') as [v1 r1| |] eqn:E; try congruence;
      rewrite (IHs _ _ E) by discriminate; auto.
Qed.

Lemma parser_stable (f f' : nat) :
  f <= f' ->
  (forall ts r, parse_summands strtod pow f ts = r -> r <> OutOfFuel ->
                parse_summands strtod pow f' ts = r) /\
  (forall acc ts r, summands_loop strtod pow f acc ts = r -> r <> OutOfFuel ->
                    summands_loop strtod pow f' acc ts = r) /\
  (forall ts r, parse_factors strtod pow f ts = r -> r <> OutOfFuel ->
                parse_factors strtod pow f' ts = r) /\
  (forall acc ts r, factors_loop strtod pow f acc ts = r -> r <> OutOfFuel ->
                    factors_loop strtod pow f' acc ts = r) /\
  (forall ts r, parse_power strtod pow f ts = r -> r <> OutOfFuel ->
                parse_power strtod pow f' ts = r) /\
  (forall ts r, parse_unary strtod pow f ts = r -> r <> OutOfFuel ->
                parse_unary strtod pow f' ts = r) /\
  (forall ts r, parse_atom strtod pow f ts = r -> r <> OutOfFuel ->
                parse_atom strtod pow f' ts = r).
Proof.
  induction 1 as [|m _ (IHs & IHsl & IHf & IHfl & IHp & IHu & IHa)].
  - repeat split; auto.
  - destruct (parser_more_fuel m) as (Ms & Msl & Mf & Mfl & Mp & Mu & Ma).
    repeat split; intros; eauto.
Qed.

Lemma complete_factors_stop (t rest : list token) :
  complete_factors strtod pow t -> no_factor_operator rest ->
  exists v, converges (fun f => parse_factors strtod pow f (t ++ rest)%list) (Parsed v rest).
Proof.
  intros Ht Hrest. destruct (Ht rest) as [v Hv].
  { destruct rest as [|[l| | | | | | |] rest']; simpl in *; auto. }
  exists v. apply Hv. exists 1. split; [|discriminate].
  destruct rest as [|[l| | | | | | |] rest']; simpl in *; tauto.
Qed.

Lemma complete_summands_step (e t : list token) (op : token)
    (apply_op : float -> float -> float) :
  (forall f acc ts,
     summands_loop strtod pow (S f) acc (op :: ts) =
     match parse_factors strtod pow f ts with
     | Parsed v rest => summands_loop strtod pow f (apply_op acc v) rest
     | other => other
     end) ->
  no_factor_operator [op] ->
  complete_summands strtod pow e -> complete_factors strtod pow t ->
  complete_summands strtod pow (e ++ op :: t).
Proof.
  intros Hop Hfollow He Ht rest Hrest.
  destruct (complete_factors_stop t rest Ht Hrest) as (vt & f2 & H2 & _).
  destruct (He (op :: t ++ rest)%list) as [ve Hve].
  { destruct op; simpl in *; auto. }
  exists (apply_op ve vt). intros r (f1 & H1 & Hr).
  rewrite <- app_assoc. cbn [app]. apply Hve.
  exists (S (Nat.max f1 f2)). split; [|assumption].
  rewrite Hop.
  destruct (parser_stable f2 (Nat.max f1 f2) (Nat.le_max_r _ _)) as (_ & _ & Sf & _).
  rewrite (Sf _ _ H2) by discriminate.
  destruct (parser_stable f1 (Nat.max f1 f2) (Nat.le_max_l _ _)) as (_ & Ssl & _).
  now apply Ssl.
Qed.

Lemma complete_factors_step (t p : list token) (op : token)
    (apply_op : float -> float -> float) :
  (forall f acc ts,
     factors_loop strtod pow (S f) acc (op :: ts) =
     match parse_power strtod pow f ts with
     | Parsed v rest => factors_loop strtod pow f (apply_op acc v) rest
     | other => other
     end) ->
  no_caret [op] ->
  complete_factors strtod pow t -> complete_power strtod pow p ->
  complete_factors strtod pow (t ++ op :: p).
Proof.
  intros Hop Hfollow Ht Hp rest Hrest.
  destruct (Hp rest Hrest) as (vp & f2 & H2 & _).
  destruct (Ht (op :: p ++ rest)%list) as [vt Hvt].
  { destruct op; simpl in *; auto. }
  exists (apply_op vt vp). intros r (f1 & H1 & Hr).
  rewrite <- app_assoc. cbn [app]. apply Hvt.
  exists (S (Nat.max f1 f2)). split; [|assumption].
  rewrite Hop.
  destruct (parser_stable f2 (Nat.max f1 f2) (Nat.le_max_r _ _)) as (_ & _ & _ & _ & Sp & _).
  rewrite (Sp _ _ H2) by discriminate.
  destruct (parser_stable f1 (Nat.max f1 f2) (Nat.le_max_l _ _)) as (_ & _ & _ & Sfl & _).
  now apply Sfl.
Qed.

(** Every derived token list is parsed, whatever admissible tokens follow. *)
Lemma parser_complete :
  (forall ts, wf_summands ts -> complete_summands strtod pow ts) /\
  (forall ts, wf_factors ts -> complete_factors strtod pow ts) /\
  (forall ts, wf_power ts -> complete_power strtod pow ts) /\
  (forall ts, wf_unary ts -> complete_unary strtod pow ts) /\
  (forall ts, wf_atom ts -> complete_atom strtod pow ts).
Proof.
  apply wf_mutual.
  - (* one factor *)
    intros t _ Ht rest Hrest.
    destruct (complete_factors_stop t rest Ht Hrest) as (vt & f2 & H2 & _).
    exists vt. intros r (f1 & H1 & Hr).
    exists (S (Nat.max f1 f2)). split; [|assumption].
    rewrite parse_summands_S.
    destruct (parser_stable f2 (Nat.max f1 f2) (Nat.le_max_r _ _)) as (_ & _ & Sf & _).
    rewrite (Sf _ _ H2) by discriminate.
    destruct (parser_stable f1 (Nat.max f1 f2) (Nat.le_max_l _ _)) as (_ & Ssl & _).
    now apply Ssl.
  - intros e t _ He _ Ht.
    apply (complete_summands_step e t TPlus PrimFloat.add); simpl; auto.
  - intros e t _ He _ Ht.
    apply (complete_summands_step e t TMinus PrimFloat.sub); simpl; auto.
  - (* one power *)
    intros p _ Hp rest Hrest.
    destruct (Hp rest Hrest) as (vp & f2 & H2 & _).
    exists vp. intros r (f1 & H1 & Hr).
    exists (S (Nat.max f1 f2)). split; [|assumption].
    rewrite parse_factors_S.
    destruct (parser_stable f2 (Nat.max f1 f2) (Nat.le_max_r _ _)) as (_ & _ & _ & _ & Sp & _).
    rewrite (Sp _ _ H2) by discriminate.
    destruct (parser_stable f1 (Nat.max f1 f2) (Nat.le_max_l _ _)) as (_ & _ & _ & Sfl & _).
    now apply Sfl.
  - intros t p _ Ht _ Hp.
    apply (complete_factors_step t p TStar PrimFloat.mul); simpl; auto.
  - intros t p _ Ht _ Hp.
    apply (complete_factors_step t p TSlash PrimFloat.div); simpl; auto.
  - (* power: a unary alone *)
    intros u _ Hu rest Hrest.
    destruct (Hu rest) as (v & f & H & _).
    exists v, (S f). split; [|discriminate].
    rewrite parse_power_S, H.
    destruct rest as [|[l| | | | | | |] rest']; simpl in *; tauto.
  - (* power: unary ^ power *)
    intros u p _ Hu _ Hp rest Hrest.
    destruct (Hu (TCaret :: p ++ rest)%list) as (base & f1 & H1 & _).
    destruct (Hp rest Hrest) as (exponent & f2 & H2 & _).
    exists (pow base exponent), (S (Nat.max f1 f2)). split; [|discriminate].
    rewrite <- app_assoc. cbn [app]. rewrite parse_power_S.
    destruct (parser_stable f1 (Nat.max f1 f2) (Nat.le_max_l _ _)) as (_ & _ & _ & _ & _ & Su & _).
    rewrite (Su _ _ H1) by discriminate.
    destruct (parser_stable f2 (Nat.max f1 f2) (Nat.le_max_r _ _)) as (_ & _ & _ & _ & Sp & _).
    now rewrite (Sp _ _ H2) by discriminate.
  - (* unary minus *)
    intros u _ Hu rest. destruct (Hu rest) as (v & f & H & _).
    exists (PrimFloat.opp v), (S f). split; [|discriminate].
    cbn [app]. now rewrite parse_unary_S, H.
  - (* unary: an atom *)
    intros a Ha Hc rest. destruct (Hc rest) as (v & f & H & _).
    exists v, (S f). split; [|discriminate].
    rewrite parse_unary_S.
    destruct Ha; cbn [app] in *; try exact H.
  - intros literal rest. exists (strtod literal), 1. split; [reflexivity | discriminate].
  - intros literal rest. exists (strtod literal), 1. split; [reflexivity | discriminate].
  - (* parentheses *)
    intros e _ He rest.
    destruct (He (TClose :: rest)) as [v Hv]; [exact I|].
    destruct (Hv (Parsed v (TClose :: rest))) as (f & H & _).
    { exists 1. split; [reflexivity | discriminate]. }
    exists v, (S f). split; [|discriminate].
    cbn [app]. rewrite <- app_assoc. cbn [app].
    now rewrite parse_atom_S, H.
Qed.

End ParserSound.

(** The parser decides the grammar: a token list is derived exactly when
    it is parsed to the end within the budget of [eval]. *)
Lemma parse_well_formed (strtod : string -> float) (pow : float -> float -> float)
    (ts : list token) :
  wf_summands ts <->
  exists v, parse_summands strtod pow (5 * List.length ts + 5) ts = Parsed v [].
Proof.
  split.
  - intros Hwf.
    destruct (proj1 (parser_complete strtod pow) ts Hwf [] I) as [v Hv].
    destruct (Hv (Parsed v [])) as (f & Hf & _).
    { exists 1. split; [reflexivity | discriminate]. }
    rewrite app_nil_r in Hf. exists v.
    set (budget := 5 * List.length ts + 5).
    pose proof (proj1 (parser_fuel strtod pow budget) ts (le_n _)) as Hb.
    destruct (parser_stable strtod pow f (Nat.max f budget) (Nat.le_max_l _ _)) as (S1 & _).
    destruct (parser_stable strtod pow budget (Nat.max f budget) (Nat.le_max_r _ _)) as (S2 & _).
    rewrite <- (S1 _ _ Hf) by discriminate.
    symmetry. now apply S2.
  - intros (v & Hv).
    destruct (proj1 (parser_sound strtod pow _) ts v [] Hv) as (pre & Hts & Hwf).
    rewrite app_nil_r in Hts. now subst pre.
Qed.

Lemma eval_well_formed (strtod : string -> float) (pow : float -> float -> float)
    (expression : string) :
  well_formed expression ->
  exists ts v, lex expression "" = Some ts /\
               parse_summands strtod pow (5 * List.length ts + 5) ts = Parsed v [] /\
               eval strtod pow expression = v.
Proof.
  intros (ts & Hlex & Hwf).
  apply (parse_well_formed strtod pow) in Hwf. destruct Hwf as [v Hv].
  exists ts, v. repeat split; auto. unfold eval. now rewrite Hlex, Hv.
Qed.

(** The three kinds of syntax error: an unexpected token, an unbalanced
    parenthesis, trailing tokens. *)
Lemma malformed_examples :
  ~ well_formed "2+" /\ ~ well_formed "2*/3" /\ ~ well_formed "2 3" /\
  ~ well_formed "(2+3" /\ ~ well_formed "2+3)" /\ ~ well_formed "".
Proof.
  repeat split; intros H;
    destruct (eval_well_formed strtod_digits pow_small _ H) as (ts & v & Hlex & Hv & _);
    vm_compute in Hlex; try discriminate Hlex;
    injection Hlex as <-; vm_compute in Hv; discriminate Hv.
Qed.

(** C3.  Every expression string that the grammar does not derive
    evaluates to the not-a-number sentinel, which is not equal to itself;
    [eval] returns on every input, and its step budget is never the reason
    for the sentinel. *)
Theorem eval_malformed_is_nan
    (strtod : string -> float) (pow : float -> float -> float) (expression : string) :
  ~ well_formed expression ->
  eval strtod pow expression = nan /\
  PrimFloat.eqb (eval strtod pow expression) (eval strtod pow expression) = false /\
  (forall ts, parse_summands strtod pow (5 * List.length ts + 5) ts <> OutOfFuel).
Proof.
  intros Hmal.
  assert (Hnan : eval strtod pow expression = nan).
  { unfold eval. destruct (lex expression "") as [ts|] eqn:Hlex; [|reflexivity].
    destruct (parse_summands strtod pow (5 * List.length ts + 5) ts) as [v rest| |] eqn:E;
      try reflexivity.
    destruct rest as [|t rest]; [|reflexivity].
    exfalso. apply Hmal. exists ts. split; [exact Hlex|].
    destruct (proj1 (parser_sound strtod pow _) ts v [] E) as (pre & Hts & Hwf).
    rewrite app_nil_r in Hts. now subst pre. }
  repeat split.
  - exact Hnan.
  - rewrite Hnan. reflexivity.
  - intros ts. apply (proj1 (parser_fuel strtod pow _)). lia.
Qed.

Lemma eval_malformed_is_nan_witness :
  eval Eval.strtod_digits Eval.pow_small "2+" = nan /\
  PrimFloat.eqb (eval Eval.strtod_digits Eval.pow_small "2+")
                (eval Eval.strtod_digits Eval.pow_small "2+") = false /\
  (forall ts, parse_summands Eval.strtod_digits Eval.pow_small (5 * List.length ts + 5) ts
              <> OutOfFuel).
Proof.
  apply (eval_malformed_is_nan Eval.strtod_digits Eval.pow_small "2+").
  exact (proj1 malformed_examples).
Defined.

End EvalSpec.

(** ** matches, matchesi: reflexivity, the star, case *)

Section MatchesMore.
Import Matches WString.

(** One unfolding of the loop of [*]. *)
Lemma match_star_unfold (pattern str : string) :
  match_ (String "*" pattern) str =
  match_ pattern str ||
  match str with
  | EmptyString => false
  | String c str' => negb (c =? NUL)%char && match_ (String "*" pattern) str'
  end.
Proof. destruct str; reflexivity. Qed.

(** X1.  Every string matches itself as a pattern, wildcards and embedded
    terminators included. *)
Theorem matches_reflexive (s : string) : matches s s = true.
Proof.
  unfold matches. induction s as [|c s IH]; [reflexivity|].
  destruct (Ascii.eqb_spec c "*") as [->|Hstar].
  - rewrite match_star_unfold. cbn [negb andb Ascii.eqb Bool.eqb NUL].
    rewrite match_star_unfold, IH. now rewrite orb_true_r.
  - apply Ascii.eqb_neq in Hstar. cbn [match_]. rewrite Hstar.
    destruct (c =? NUL)%char eqn:Hnul; [simpl; exact Hnul|].
    destruct (c =? "?")%char eqn:Hq.
    + rewrite Hnul. apply Ascii.eqb_eq in Hq. subst c. now rewrite IH.
    + now rewrite Ascii.eqb_refl, IH.
Qed.

(** X2.  The pattern ["*"] matches every string. *)
Theorem matches_star_everything (s : string) : matches s "*" = true.
Proof.
  unfold matches. induction s as [|c s IH]; [reflexivity|].
  rewrite match_star_unfold, IH. cbn [match_ deref].
  now destruct (c =? NUL)%char.
Qed.

Lemma toupper_tolower (c : ascii) : toupper (tolower c) = toupper c.
Proof. destruct c as [[] [] [] [] [] [] [] []]; reflexivity. Qed.

Lemma toupper_toupper (c : ascii) : toupper (toupper c) = toupper c.
Proof. destruct c as [[] [] [] [] [] [] [] []]; reflexivity. Qed.

Lemma tolower_toupper (c : ascii) : tolower (toupper c) = tolower c.
Proof. destruct c as [[] [] [] [] [] [] [] []]; reflexivity. Qed.

Lemma uppercase_lowercase (s : string) : uppercase (lowercase s) = uppercase s.
Proof.
  induction s as [|c s IH]; [reflexivity|].
  unfold uppercase, lowercase in *. simpl. now rewrite toupper_tolower, IH.
Qed.

Lemma uppercase_uppercase (s : string) : uppercase (uppercase s) = uppercase s.
Proof.
  induction s as [|c s IH]; [reflexivity|].
  unfold uppercase in *. simpl. now rewrite toupper_toupper, IH.
Qed.

Lemma lowercase_uppercase (s : string) : lowercase (uppercase s) = lowercase s.
Proof.
  induction s as [|c s IH]; [reflexivity|].
  unfold uppercase, lowercase in *. simpl. now rewrite tolower_toupper, IH.
Qed.

(** X3.  [matchesi] does not see the case of its operands: changing the
    case of the text or of the pattern leaves the answer unchanged, and two
    strings that differ by case only match each other. *)
Theorem matchesi_ignores_case (text pattern : string) :
  matchesi (lowercase text) pattern = matchesi text pattern /\
  matchesi (uppercase text) pattern = matchesi text pattern /\
  matchesi text (lowercase pattern) = matchesi text pattern /\
  matchesi text (uppercase pattern) = matchesi text pattern /\
  matchesi (lowercase text) (uppercase text) = true.
Proof.
  unfold matchesi.
  rewrite !uppercase_lowercase, !uppercase_uppercase.
  repeat split. apply matches_reflexive.
Qed.

End MatchesMore.

(** ** starts_with, ends_with, find, left_of, right_of *)

Section Slices.
Import WString.

Lemma substring_0_app (t rest : string) :
  substring 0 (length t) (t ++ rest) = t.
Proof. induction t as [|c t IH]; simpl; [now destruct rest | now rewrite IH]. Qed.

Lemma drop_app (t rest : string) : drop (length t) (t ++ rest) = rest.
Proof. induction t as [|c t IH]; simpl; [reflexivity | exact IH]. Qed.

Lemma drop_drop (a b : nat) (s : string) : drop a (drop b s) = drop (b + a) s.
Proof.
  revert s; induction b as [|b IH]; intros s; [reflexivity|].
  destruct s as [|c s]; simpl; [now destruct a | apply IH].
Qed.

Lemma prefix_iff (t s : string) : prefix t s = true <-> exists rest, s = t ++ rest.
Proof.
  revert s; induction t as [|c t IH]; intros s; simpl.
  - destruct s; split; eauto.
  - destruct s as [|d s]; simpl.
    + split; [discriminate | intros [rest H]; discriminate H].
    + destruct (ascii_dec c d) as [->|Hne].
      * rewrite IH. split; intros [rest H]; exists rest; congruence.
      * split; [discriminate | intros [rest H]; congruence].
Qed.

Lemma prefix_length (t s : string) : prefix t s = true -> length t <= length s.
Proof. intros H. apply prefix_iff in H. destruct H as [rest ->]. rewrite length_append. lia. Qed.

(** X4.  [starts_with] holds exactly of the strings that begin with the
    prefix, [ends_with] exactly of those that end with the suffix. *)
Theorem starts_ends_with_iff (self affix : string) :
  (starts_with self affix = true <-> exists rest, self = affix ++ rest) /\
  (ends_with self affix = true <-> exists front_, self = front_ ++ affix).
Proof.
  split; split.
  - unfold starts_with. destruct (Nat.leb_spec (length affix) (length self)) as [Hle|Hgt];
      [|discriminate].
    intros H. apply String.eqb_eq in H. exists (drop (length affix) self).
    rewrite (substring_0_split (length affix) self Hle) at 1. now rewrite H.
  - intros [rest ->]. unfold starts_with. rewrite length_append.
    destruct (Nat.leb_spec (length affix) (length affix + length rest)); [|lia].
    rewrite substring_0_app. apply String.eqb_refl.
  - unfold ends_with. destruct (Nat.ltb_spec (length self) (length affix)) as [Hlt|Hge];
      [discriminate|].
    intros H. apply String.eqb_eq in H.
    exists (substring 0 (length self - length affix) self).
    rewrite (substring_0_split (length self - length affix) self) at 1 by lia.
    now rewrite H.
  - intros [front_ ->]. unfold ends_with. rewrite length_append.
    destruct (Nat.ltb_spec (length front_ + length affix) (length affix)); [lia|].
    replace (length front_ + length affix - length affix) with (length front_) by lia.
    rewrite drop_app. apply String.eqb_refl.
Qed.

Lemma find_in_shift (t s : string) (pos : nat) :
  find_in t s (S pos) = option_map S (find_in t s pos).
Proof.
  revert pos; induction s as [|c s IH]; intros pos; cbn [find_in].
  - now destruct (prefix t "").
  - destruct (prefix t (String c s)); [reflexivity | apply IH].
Qed.

(** What [find_in] returns is the first position at which the target
    starts. *)
Lemma find_in_some (t s : string) (pos k : nat) :
  find_in t s pos = Some k ->
  exists j, k = pos + j /\ j + length t <= length s /\
            prefix t (drop j s) = true /\
            forall j', j' < j -> prefix t (drop j' s) = false.
Proof.
  revert pos; induction s as [|c s IH]; intros pos; cbn [find_in].
  - destruct (prefix t "") eqn:Hp; [|discriminate].
    intros [= <-]. exists 0. repeat split; try lia; auto.
    apply prefix_length in Hp. simpl in *. lia.
  - destruct (prefix t (String c s)) eqn:Hp.
    + intros [= <-]. exists 0. repeat split; try lia; auto.
      apply prefix_length in Hp. simpl in *. lia.
    + intros H. destruct (IH _ H) as (j & -> & Hlen & Hj & Hfirst).
      exists (S j). repeat split; simpl; try lia; auto.
      intros [|j'] Hlt; [exact Hp|]. simpl. apply Hfirst. lia.
Qed.

Lemma find_in_none (t s : string) (pos : nat) :
  find_in t s pos = None -> forall j, prefix t (drop j s) = false.
Proof.
  revert pos; induction s as [|c s IH]; intros pos; cbn [find_in].
  - destruct (prefix t "") eqn:Hp; [discriminate|]. intros _ [|j]; exact Hp.
  - destruct (prefix t (String c s)) eqn:Hp; [discriminate|].
    intros H [|j]; [exact Hp|]. simpl. now apply (IH _ H).
Qed.

(** X5.  Around the first occurrence of a non-empty substring: [left_of]
    is what precedes it, and [right_of] is what follows its first byte, so
    the rest of a longer substring stays at the head of [right_of]. *)
Theorem left_of_right_of_first_occurrence
    (self : string) (c : ascii) (tail : string) (pos : nat) :
  find self (String c tail) 0 = Some pos ->
  exists r,
    right_of self (String c tail) = Ok r /\
    self = left_of self (String c tail) ++ String c r /\
    prefix tail r = true /\
    length (left_of self (String c tail)) = pos /\
    forall j, j < pos -> prefix (String c tail) (drop j self) = false.
Proof.
  intros Hfind. unfold left_of, right_of. rewrite Hfind.
  unfold find in Hfind. cbn [Nat.leb drop] in Hfind.
  destruct (find_in_some _ _ _ _ Hfind) as (j & Hj & Hlen & Hpre & Hfirst).
  simpl in Hj. subst j. cbn [length] in Hlen.
  destruct (Nat.leb_spec (pos + 1) (length self)) as [_|Hgt]; [|lia].
  exists (drop (pos + 1) self).
  apply prefix_iff in Hpre. destruct Hpre as [rest Hrest].
  assert (Hself : self = substring 0 pos self ++ String c (tail ++ rest)).
  { change (String c (tail ++ rest)) with (String c tail ++ rest).
    rewrite <- Hrest. apply substring_0_split. lia. }
  assert (Hdrop : drop (pos + 1) self = tail ++ rest).
  { rewrite <- drop_drop, Hrest. reflexivity. }
  repeat split.
  - rewrite Hdrop. exact Hself.
  - rewrite Hdrop. apply prefix_iff. eauto.
  - apply substring_0_length. lia.
  - exact Hfirst.
Qed.

Lemma left_of_right_of_first_occurrence_witness :
  exists r,
    right_of "a->b" "->" = Ok r /\
    "a->b" = left_of "a->b" "->" ++ String "-" r /\
    prefix ">" r = true /\
    length (left_of "a->b" "->") = 1 /\
    forall j, j < 1 -> prefix "->" (drop j "a->b") = false.
Proof.
  apply (left_of_right_of_first_occurrence "a->b" "-" ">" 1). reflexivity.
Defined.

(** X6.  [right_of] throws in one case only: the empty string asked for
    what follows the empty substring. *)
Theorem right_of_throws_iff (self substring_ : string) :
  right_of self substring_ = OutOfRange <-> self = "" /\ substring_ = "".
Proof.
  split.
  - unfold right_of. destruct (find self substring_ 0) as [pos|] eqn:Hfind; [|discriminate].
    destruct (Nat.leb_spec (pos + 1) (length self)) as [|Hgt]; [discriminate|].
    intros _. unfold find in Hfind. cbn [Nat.leb drop] in Hfind.
    destruct (find_in_some _ _ _ _ Hfind) as (j & Hj & Hlen & Hpre & Hfirst).
    simpl in Hj. subst j.
    assert (Hsub : substring_ = "") by (destruct substring_; [reflexivity | simpl in Hlen; lia]).
    subst substring_. split; [|reflexivity].
    destruct pos as [|pos].
    + destruct self; [reflexivity | simpl in Hgt; lia].
    + specialize (Hfirst 0 ltac:(lia)). simpl in Hfirst. destruct self; discriminate.
  - intros [-> ->]. reflexivity.
Qed.

End Slices.

(** ** replace, count *)

Section ReplaceCount.
Import ReplaceMap WString.

Lemma substring_0_0 (s : string) : substring 0 0 s = "".
Proof. now destruct s. Qed.

Lemma substring_0_app_r (a b : string) (j : nat) :
  substring 0 (length a + j) (a ++ b) = a ++ substring 0 j b.
Proof. induction a as [|c a IH]; simpl; [reflexivity | now rewrite IH]. Qed.

Lemma drop_app_plus (a b : string) (j : nat) :
  drop (length a + j) (a ++ b) = drop j b.
Proof. induction a as [|c a IH]; simpl; [reflexivity | exact IH]. Qed.

Lemma starts_at_prefix (s t : string) : starts_at s 0 t = prefix t s.
Proof.
  apply eq_true_iff_eq. rewrite prefix_iff. unfold starts_at.
  rewrite andb_true_iff, Nat.leb_le, String.eqb_eq, Nat.sub_0_r. split.
  - intros [Hle Hsub]. exists (drop (length t) s).
    rewrite (substring_0_split (length t) s Hle) at 1. now rewrite Hsub.
  - intros [rest ->]. rewrite length_append, substring_0_app. split; [lia | reflexivity].
Qed.

Lemma scan_rules_single (s t r : string) :
  t <> "" ->
  scan_rules s 0 [(t, r)] = if prefix t s then Hit t r else Miss.
Proof.
  intros Ht. rewrite <- starts_at_prefix.
  destruct (starts_at s 0 t) eqn:Hst.
  - now apply scan_rules_cons_hit.
  - change [(t, r)] with ([(t, r)] ++ [])%list. rewrite scan_rules_skip; [reflexivity|].
    intros t' r' [[= <- <-]|[]]. exact Hst.
Qed.

(** With one rule: a text in which the pattern starts nowhere is its own
    result. *)
Lemma replace_map_single_none (s t r : string) :
  t <> "" ->
  (forall j, prefix t (drop j s) = false) ->
  replace_map s [(t, r)] = Some (Ok s).
Proof.
  intros Ht. induction s as [|c s IH]; intros Hno; [reflexivity|].
  rewrite replace_map_miss.
  - rewrite IH; [reflexivity|]. intros j. exact (Hno (S j)).
  - cbn [rev app]. rewrite scan_rules_single by assumption.
    pose proof (Hno 0) as H0. cbn [drop] in H0. now rewrite H0.
Qed.

(** With one rule: up to the first occurrence the text is copied, then the
    replacement follows and the rest is processed. *)
Lemma replace_map_single_first (t r : string) (j : nat) :
  t <> "" ->
  forall s,
    prefix t (drop j s) = true ->
    (forall j', j' < j -> prefix t (drop j' s) = false) ->
    j + length t <= length s ->
    replace_map s [(t, r)] =
    prepend (substring 0 j s ++ r) (replace_map (drop (j + length t) s) [(t, r)]).
Proof.
  intros Ht. induction j as [|j IH]; intros s Hpre Hfirst Hlen.
  - rewrite substring_0_0. cbn [append drop Nat.add] in *.
    apply replace_map_hit. cbn [rev app]. rewrite scan_rules_single by assumption.
    now rewrite Hpre.
  - destruct s as [|c s]; [simpl in Hlen; lia|].
    rewrite replace_map_miss.
    + rewrite (IH s); [|exact Hpre| |simpl in Hlen; lia].
      * rewrite prepend_prepend. reflexivity.
      * intros j' Hj'. apply (Hfirst (S j')). lia.
    + cbn [rev app]. rewrite scan_rules_single by assumption.
      pose proof (Hfirst 0 ltac:(lia)) as H0. cbn [drop] in H0. now rewrite H0.
Qed.

Lemma find_at_done (done rest t : string) :
  find (done ++ rest) t (length done) = find_in t rest (length done).
Proof.
  unfold find. rewrite length_append.
  destruct (Nat.leb_spec (length done) (length done + length rest)); [|lia].
  now rewrite drop_app.
Qed.

(** The loop of [replace], started behind what is already rewritten,
    appends the one-rule result of the rest. *)
Lemma replace_loop_replace_map (t r : string) :
  t <> "" ->
  forall fuel rest done,
    length rest < fuel ->
    exists out,
      replace_map rest [(t, r)] = Some (Ok out) /\
      replace_loop fuel (done ++ rest) t r (length done) = Some (done ++ out).
Proof.
  intros Ht. induction fuel as [|fuel IH]; intros rest done Hfuel; [lia|].
  cbn [replace_loop]. rewrite find_at_done.
  destruct (find_in t rest (length done)) as [k|] eqn:Hfind.
  - destruct (find_in_some _ _ _ _ Hfind) as (j & -> & Hlen & Hpre & Hfirst).
    assert (Htlen : 0 < length t) by (destruct t; [congruence | simpl; lia]).
    unfold std_replace.
    rewrite substring_0_app_r, <- Nat.add_assoc, drop_app_plus.
    set (rest' := drop (j + length t) rest).
    set (done' := done ++ substring 0 j rest ++ r).
    assert (Hdone' : length done' = length done + j + length r).
    { unfold done'. rewrite !length_append, substring_0_length by lia. lia. }
    destruct (IH rest' done') as (out' & Hout' & Hloop).
    { unfold rest'. rewrite length_drop. lia. }
    exists (substring 0 j rest ++ r ++ out'). split.
    + rewrite (replace_map_single_first t r j Ht rest Hpre Hfirst Hlen).
      fold rest'. rewrite Hout'. simpl. now rewrite append_assoc.
    + rewrite <- Hdone'.
      replace ((done ++ substring 0 j rest) ++ r ++ rest') with (done' ++ rest')
        by (unfold done'; now rewrite !append_assoc).
      rewrite Hloop. unfold done'. now rewrite !append_assoc.
  - exists rest. split; [|reflexivity].
    apply replace_map_single_none; [assumption|]. now apply (find_in_none _ _ _ Hfind).
Qed.

(** X7.  For a non-empty target, [replace] returns, and what it returns is
    the result of [replace_map] with the single rule target -> replacement. *)
Theorem replace_is_replace_map_with_one_rule (self target replacement : string) :
  target <> "" ->
  exists out,
    replace self target replacement = Some out /\
    replace_map self (register [(target, replacement)]) = Some (Ok out).
Proof.
  intros Ht.
  destruct (replace_loop_replace_map target replacement Ht (S (length self)) self "")
    as (out & Hmap & Hloop); [lia|].
  exists out. split; [exact Hloop | exact Hmap].
Qed.

Lemma replace_is_replace_map_with_one_rule_witness :
  exists out,
    replace "a-b-c" "-" "+" = Some out /\
    replace_map "a-b-c" (register [("-", "+")]) = Some (Ok out).
Proof.
  apply (replace_is_replace_map_with_one_rule "a-b-c" "-" "+"). discriminate.
Defined.

Lemma find_empty (s : string) (pos : nat) :
  pos <= length s -> find s "" pos = Some pos.
Proof.
  intros H. unfold find. apply Nat.leb_le in H. rewrite H.
  now destruct (drop pos s).
Qed.

(** X8.  With the empty target or substring the loops of [replace] and
    [count] find it again at every turn: no number of steps lets them
    return. *)
Theorem replace_count_empty_never_return (self replacement : string) (fuel : nat) :
  replace_loop fuel self "" replacement 0 = None /\
  count_loop fuel self "" 0 0 = None.
Proof.
  split.
  - assert (H : forall fuel s found, found <= length s ->
              replace_loop fuel s "" replacement found = None).
    { clear fuel. induction fuel as [|fuel IH]; intros s found Hle; [reflexivity|].
      cbn [replace_loop]. rewrite find_empty by assumption. apply IH.
      unfold std_replace. rewrite !length_append, substring_0_length, length_drop by lia.
      simpl. lia. }
    apply H. lia.
  - assert (H : forall fuel pos n, pos <= length self ->
              count_loop fuel self "" pos n = None).
    { clear fuel. induction fuel as [|fuel IH]; intros pos n Hle; [reflexivity|].
      cbn [count_loop]. rewrite find_empty by assumption. apply IH. simpl. lia. }
    apply H. lia.
Qed.

Lemma find_at_index (self t : string) (pos : nat) :
  pos <= length self -> find self t pos = find_in t (drop pos self) pos.
Proof. intros H. unfold find. apply Nat.leb_le in H. now rewrite H. Qed.

Lemma count_loop_replace_map (self t : string) :
  t <> "" ->
  forall fuel pos n0,
    pos <= length self -> length self - pos < fuel ->
    exists n,
      count_loop fuel self t pos n0 = Some (n0 + n) /\
      n * length t <= length self - pos /\
      forall r out,
        replace_map (drop pos self) [(t, r)] = Some (Ok out) ->
        length out + n * length t = length self - pos + n * length r.
Proof.
  intros Ht.
  assert (Htlen : 0 < length t) by (destruct t; [congruence | simpl; lia]).
  induction fuel as [|fuel IH]; intros pos n0 Hpos Hfuel; [lia|].
  cbn [count_loop]. rewrite find_at_index by assumption.
  destruct (find_in t (drop pos self) pos) as [k|] eqn:Hfind.
  - destruct (find_in_some _ _ _ _ Hfind) as (j & -> & Hlen & Hpre & Hfirst).
    rewrite length_drop in Hlen.
    destruct (IH (pos + j + length t) (S n0)) as (n & Hcount & Hbound & Hrel); [lia | lia |].
    exists (S n). split; [|split].
    + rewrite Hcount. f_equal. lia.
    + simpl. lia.
    + intros r out Hout.
      rewrite (replace_map_single_first t r j Ht _ Hpre Hfirst) in Hout
        by (rewrite length_drop; lia).
      rewrite drop_drop, Nat.add_assoc in Hout.
      destruct (replace_map (drop (pos + j + length t) self) [(t, r)])
        as [[out'|]|] eqn:Hout'; try discriminate.
      injection Hout as <-. specialize (Hrel r out' Hout').
      rewrite !length_append, substring_0_length by (rewrite length_drop; lia).
      simpl. lia.
  - exists 0. split; [f_equal; lia | split; [simpl; lia|]].
    intros r out Hout.
    rewrite replace_map_single_none in Hout;
      [|assumption | now apply (find_in_none _ _ _ Hfind)].
    injection Hout as <-. rewrite length_drop. simpl. lia.
Qed.

(** X9.  For a non-empty substring, [count] returns the number [n] of
    replacements that [replace] makes: the occurrences counted do not
    overlap ([n] times the length of the substring fits in the text), and
    the result of [replace] is longer or shorter than the text by [n] times
    the difference of the two lengths. *)
Theorem count_and_replace_lengths (self target replacement : string) :
  target <> "" ->
  exists n out,
    count self target = Some n /\
    replace self target replacement = Some out /\
    n * length target <= length self /\
    length out + n * length target = length self + n * length replacement.
Proof.
  intros Ht.
  destruct (count_loop_replace_map self target Ht (S (length self)) 0 0)
    as (n & Hcount & Hbound & Hrel); [lia | lia |].
  destruct (replace_is_replace_map_with_one_rule self target replacement Ht)
    as (out & Hrep & Hmap).
  exists n, out. repeat split; auto; try lia.
  specialize (Hrel replacement out Hmap). lia.
Qed.

Lemma count_and_replace_lengths_witness :
  exists n out,
    count "aXXbXXc" "XX" = Some n /\
    replace "aXXbXXc" "XX" "y" = Some out /\
    n * length "XX" <= length "aXXbXXc" /\
    length out + n * length "XX" = length "aXXbXXc" + n * length "y".
Proof.
  apply (count_and_replace_lengths "aXXbXXc" "XX" "y"). discriminate.
Defined.

End ReplaceCount.

(** ** split, tokenize *)

Section Tokens.
Import WString.

Lemma concat_cons (x : string) (l : list string) :
  String.concat "" (x :: l) = x ++ String.concat "" l.
Proof. destruct l; simpl; [now rewrite append_nil_r | reflexivity]. Qed.

Lemma concat_app (a b : list string) :
  String.concat "" (a ++ b) = String.concat "" a ++ String.concat "" b.
Proof.
  induction a as [|x a IH]; [reflexivity|].
  change ((x :: a) ++ b)%list with (x :: (a ++ b))%list.
  now rewrite !concat_cons, IH, append_assoc.
Qed.

Lemma delimiter_free_app (d a : string) (c : ascii) :
  delimiter_free d (a ++ String c "") = delimiter_free d a && negb (is_delimiter d c).
Proof.
  induction a as [|x a IH]; simpl.
  - now rewrite andb_true_r.
  - now rewrite IH, andb_assoc.
Qed.

(** What [split] puts in its deque: a delimiter alone, or a non-empty run
    without delimiter. *)
Definition split_token (d t : string) : Prop :=
  t <> "" /\ (is_separator_token d t = true \/ delimiter_free d t = true).

Lemma run_not_separator (d t : string) :
  delimiter_free d t = true -> is_separator_token d t = false.
Proof.
  destruct t as [|c [|c' t]]; simpl; try reflexivity.
  rewrite andb_true_r. now destruct (is_delimiter d c).
Qed.

Lemma length_eqb_0 (s : string) : (length s =? 0)%nat = true <-> s = "".
Proof. destruct s; simpl; split; congruence. Qed.

(** The two loops side by side: [split] keeps everything, [tokenize]
    keeps the runs. *)
Lemma split_loop_invariant (d : string) :
  forall self str tokens,
    delimiter_free d str = true -> Forall (split_token d) tokens ->
    forall str' tokens', split_loop d self str tokens = (str', tokens') ->
      String.concat "" (rev tokens') ++ str' = String.concat "" (rev tokens) ++ str ++ self /\
      delimiter_free d str' = true /\
      Forall (split_token d) tokens' /\
      tokenize_loop d self (str :: filter (fun t => negb (is_separator_token d t)) tokens) =
      str' :: filter (fun t => negb (is_separator_token d t)) tokens'.
Proof.
  induction self as [|ch rest IH]; intros str tokens Hstr Htok str' tokens' Hloop.
  - injection Hloop as <- <-. rewrite append_nil_r. auto.
  - cbn [split_loop tokenize_loop] in *.
    destruct (is_delimiter d ch) eqn:Hch; cbn [negb].
    + destruct (length str =? 0)%nat eqn:Hlen; cbn [negb] in *.
      * apply length_eqb_0 in Hlen. subst str.
        assert (Hall0 : Forall (split_token d) (String ch "" :: tokens)).
        { constructor; [|assumption]. split; [discriminate|]. left. simpl. exact Hch. }
        destruct (IH "" (String ch "" :: tokens) eq_refl Hall0 _ _ Hloop)
          as (Hcat & Hfree & Hall & Htk).
        repeat split; auto.
        -- rewrite Hcat. cbn [rev]. rewrite concat_app, concat_cons. simpl.
           now rewrite !append_assoc.
        -- rewrite <- Htk. cbn [filter is_separator_token]. now rewrite Hch.
      * assert (Hne : str <> "") by (intros ->; discriminate Hlen).
        assert (Hall0 : Forall (split_token d) (String ch "" :: str :: tokens)).
        { constructor; [split; [discriminate | left; simpl; exact Hch]|].
          constructor; [split; auto | assumption]. }
        destruct (IH "" (String ch "" :: str :: tokens) eq_refl Hall0 _ _ Hloop)
          as (Hcat & Hfree & Hall & Htk).
        repeat split; auto.
        -- rewrite Hcat. cbn [rev]. rewrite !concat_app, !concat_cons. simpl.
           now rewrite !append_assoc.
        -- rewrite <- Htk. cbn [filter]. cbn [is_separator_token]. rewrite Hch. cbn [negb].
           now rewrite (run_not_separator d str Hstr).
    + assert (Hstr0 : delimiter_free d (str ++ String ch "") = true)
        by (rewrite delimiter_free_app, Hstr, Hch; reflexivity).
      destruct (IH (str ++ String ch "") tokens Hstr0 Htok _ _ Hloop)
        as (Hcat & Hfree & Hall & Htk).
      repeat split; auto.
      rewrite Hcat. now rewrite !append_assoc.
Qed.

Lemma filter_rev_list {A} (f : A -> bool) (l : list A) :
  filter f (rev l) = rev (filter f l).
Proof.
  induction l as [|x l IH]; [reflexivity|].
  cbn [rev filter]. rewrite filter_app, IH. cbn [filter].
  destruct (f x); [reflexivity | now rewrite app_nil_r].
Qed.

Lemma pop_empty_nonempty (tokens : list string) :
  Forall (fun t => t <> "") tokens -> pop_empty tokens = tokens.
Proof.
  intros H. destruct H as [|t l Ht _]; [reflexivity|].
  cbn [pop_empty]. destruct (length t =? 0)%nat eqn:E; [|reflexivity].
  apply length_eqb_0 in E. contradiction.
Qed.

(** X10.  [split] loses nothing: its tokens, concatenated, are the text.
    Every token is non-empty, and is either one delimiter or a run without
    delimiter. *)
Theorem split_concat_round_trip (self delimiters : string) :
  String.concat "" (split self delimiters) = self /\
  Forall (fun t => t <> "" /\
                   (is_separator_token delimiters t = true \/
                    delimiter_free delimiters t = true))
         (split self delimiters).
Proof.
  unfold split.
  destruct (split_loop delimiters self "" []) as [str tokens] eqn:Hloop.
  destruct (split_loop_invariant delimiters self "" [] eq_refl (Forall_nil _) _ _ Hloop)
    as (Hcat & Hfree & Hall & _).
  simpl in Hcat.
  destruct (length str =? 0)%nat eqn:Hlen.
  - apply length_eqb_0 in Hlen. subst str. rewrite append_nil_r in Hcat.
    split; [exact Hcat|]. now apply Forall_rev.
  - split.
    + cbn [rev]. rewrite concat_app, concat_cons. simpl. now rewrite append_nil_r.
    + apply Forall_rev. constructor; [|assumption].
      split; [intros ->; discriminate Hlen | now right].
Qed.

(** X11.  The tokens of [tokenize] are the tokens of [split] that are not
    delimiters, in the same order; none is empty and none holds a
    delimiter. *)
Theorem tokenize_is_split_without_delimiters (self delimiters : string) :
  tokenize self delimiters =
  filter (fun t => negb (is_separator_token delimiters t)) (split self delimiters) /\
  Forall (fun t => t <> "" /\ delimiter_free delimiters t = true)
         (tokenize self delimiters).
Proof.
  assert (Heq : tokenize self delimiters =
                filter (fun t => negb (is_separator_token delimiters t))
                       (split self delimiters)).
  { unfold tokenize, split.
    destruct (split_loop delimiters self "" []) as [str tokens] eqn:Hloop.
    destruct (split_loop_invariant delimiters self "" [] eq_refl (Forall_nil _) _ _ Hloop)
      as (_ & Hfree & Hall & Htk).
    cbn [filter] in Htk. rewrite Htk, filter_rev_list. f_equal.
    assert (Hne : Forall (fun t => t <> "")
                    (filter (fun t => negb (is_separator_token delimiters t)) tokens)).
    { apply Forall_forall. intros t Ht. apply filter_In in Ht. destruct Ht as [Ht _].
      rewrite Forall_forall in Hall. now apply Hall. }
    cbn [pop_empty]. destruct (length str =? 0)%nat eqn:Hlen.
    - now apply pop_empty_nonempty.
    - cbn [filter]. now rewrite (run_not_separator delimiters str Hfree). }
  split; [exact Heq|].
  rewrite Heq. apply Forall_forall. intros t Ht. apply filter_In in Ht.
  destruct Ht as [Ht Hsep].
  destruct (split_concat_round_trip self delimiters) as [_ Hall].
  rewrite Forall_forall in Hall. destruct (Hall t Ht) as [Hne [Hs|Hf]]; [|auto].
  rewrite Hs in Hsep. discriminate.
Qed.

End Tokens.

(** ** ini *)

Section IniFacts.
Import WString Ini.

Example load_example :
  load ("[video]" ++ CRLF ++ "width=640 ; pixels" ++ CRLF ++ "height=480")
  = (true, [("video.height", "480"); ("video.width", "640 ")]).
Proof. reflexivity. Qed.

Example save_example :
  save [("video.height", "480"); ("video.width", "640")]
  = Some (save_header ++ CRLF ++ CRLF ++ "[video]" ++ CRLF ++
          "height=480" ++ CRLF ++ "width=640" ++ CRLF).
Proof. reflexivity. Qed.

Lemma tokenize_loop_frame (d : string) :
  forall s back_ front_,
    tokenize_loop d s (back_ :: front_) = (tokenize_loop d s [back_] ++ front_)%list.
Proof.
  induction s as [|c s IH]; intros back_ front_; [reflexivity|].
  cbn [tokenize_loop].
  destruct (negb (is_delimiter d c)).
  - apply IH.
  - destruct (negb (length back_ =? 0)%nat).
    + rewrite (IH "" (back_ :: front_)), (IH "" [back_]).
      now rewrite <- app_assoc.
    + apply IH.
Qed.

Lemma tokenize_loop_run (d line : string) :
  delimiter_free d line = true ->
  forall rest back_ front_,
    tokenize_loop d (line ++ rest) (back_ :: front_) =
    tokenize_loop d rest ((back_ ++ line) :: front_).
Proof.
  induction line as [|c line IH]; intros Hfree rest back_ front_.
  - now rewrite append_nil_r.
  - cbn [delimiter_free] in Hfree. apply andb_prop in Hfree. destruct Hfree as [Hc Hline].
    cbn [append tokenize_loop]. rewrite Hc, IH by assumption.
    now rewrite append_assoc.
Qed.

Lemma pop_empty_snoc (tokens : list string) (l : string) :
  l <> "" -> pop_empty (tokens ++ [l]) = (pop_empty tokens ++ [l])%list.
Proof.
  intros Hl. induction tokens as [|t tokens IH]; cbn [app pop_empty].
  - destruct (length l =? 0)%nat eqn:E; [|reflexivity].
    apply length_eqb_0 in E. contradiction.
  - destruct (length t =? 0)%nat; [exact IH | reflexivity].
Qed.

(** A first line, closed by a delimiter, is the first token. *)
Lemma tokenize_first_line (d line : string) (c : ascii) (tail : string) :
  line <> "" -> delimiter_free d line = true -> is_delimiter d c = true ->
  tokenize (line ++ String c tail) d = line :: tokenize tail d.
Proof.
  intros Hne Hfree Hc. unfold tokenize.
  rewrite tokenize_loop_run by assumption. cbn [append tokenize_loop].
  rewrite Hc. cbn [negb].
  destruct (length line =? 0)%nat eqn:E; [apply length_eqb_0 in E; contradiction|].
  cbn [negb]. rewrite tokenize_loop_frame, pop_empty_snoc by assumption.
  now rewrite rev_app_distr.
Qed.

Lemma load_lines_bad_line (line : string) :
  List.length (split (strip_comment line) "[]=") <> 3 ->
  forall lines section m,
    In line lines -> fst (load_lines lines section m) = false.
Proof.
  intros Hbad. induction lines as [|l lines IH]; intros section m Hin; [contradiction|].
  cbn [load_lines].
  destruct Hin as [->|Hin].
  - destruct (split (strip_comment line) "[]=") as [|t0 [|t1 [|t2 [|t3 ts]]]];
      try reflexivity.
    now contradiction Hbad.
  - destruct (split (strip_comment l) "[]=") as [|t0 [|t1 [|t2 [|t3 ts]]]];
      try reflexivity.
    destruct ((t0 =? "[")%string && (t2 =? "]")%string); [now apply IH|].
    destruct (t1 =? "=")%string; [now apply IH | reflexivity].
Qed.

(** X12.  [load] returns false as soon as one line, once its comment is
    cut, does not split into exactly three tokens on the bytes "[]=";
    a line that is only a comment is such a line. *)
Theorem load_fails_on_bad_line (text line : string) :
  In line (tokenize text CRLF) ->
  List.length (split (strip_comment line) "[]=") <> 3 ->
  fst (load text) = false /\
  forall comment, strip_comment (String ";" comment) = "" /\
                  split (strip_comment (String ";" comment)) "[]=" = [].
Proof.
  intros Hin Hbad. split.
  - unfold load. now apply (load_lines_bad_line line Hbad).
  - intros comment. split; reflexivity.
Qed.

Lemma load_fails_on_bad_line_witness :
  fst (load ("[s]" ++ CRLF ++ "; a comment" ++ CRLF ++ "k=v")) = false /\
  forall comment, strip_comment (String ";" comment) = "" /\
                  split (strip_comment (String ";" comment)) "[]=" = [].
Proof.
  apply (load_fails_on_bad_line _ "; a comment").
  - vm_compute. right. left. reflexivity.
  - vm_compute. discriminate.
Defined.

Lemma save_entries_extends (entries : smap) :
  forall section output out,
    save_entries entries section output = Some out ->
    exists tail, out = output ++ tail.
Proof.
  induction entries as [|[first second] entries IH]; intros section output out; cbn [save_entries].
  - intros [= <-]. exists "". now rewrite append_nil_r.
  - destruct (tokenize first ".") as [|kv0 [|kv1 kv]]; try discriminate.
    destruct (negb (section =? kv0)%string); intros H;
      destruct (IH _ _ _ H) as [tail ->]; rewrite !append_assoc; eauto.
Qed.

(** X13.  [load] never reads back what [save] wrote: the first line of
    every saved text is the comment that [save] puts there, on which [load]
    returns false with an empty map. *)
Theorem load_of_save_fails (m : smap) (out : string) :
  save m = Some out -> load out = (false, []).
Proof.
  unfold save. intros H. destruct (save_entries_extends _ _ _ _ H) as [tail ->].
  unfold load.
  change (tokenize ((save_header ++ CRLF) ++ tail) CRLF)
    with (tokenize (save_header ++ String "013" (String "010" tail)) CRLF).
  rewrite tokenize_first_line; [reflexivity | discriminate | reflexivity | reflexivity].
Qed.

Lemma load_of_save_fails_witness :
  load (save_header ++ CRLF ++ CRLF ++ "[a]" ++ CRLF ++ "b=c" ++ CRLF) = (false, []).
Proof.
  apply (load_of_save_fails [("a.b", "c")]). reflexivity.
Defined.

End IniFacts.

(** ** strip *)

Section StripFacts.
Import Strip.

Example strip_examples :
  strip "  hello world  " "" = Some (Ok "hello world"%string) /\
  lstrip "  hello " "" = Some (Ok "hello "%string) /\
  rstrip " hello  " "" = Some (Ok " hello"%string) /\
  strip "xxhixyx" "xy" = Some (Ok "hi"%string) /\
  strip "   " "" = Some (Ok ""%string) /\
  strip "" "" = Some (Ok ""%string).
Proof. repeat split; vm_compute; reflexivity. Qed.

Local Open Scope Z_scope.

Lemma wrap_int_range (z : Z) : At.int_min <= At.wrap_int z <= At.int_max.
Proof.
  unfold At.wrap_int, At.int_min, At.int_max.
  pose proof (Z.mod_pos_bound (z + 2 ^ 31) (2 ^ 32) ltac:(lia)). lia.
Qed.

Lemma wrap_size_small (z : Z) : 0 <= z <= At.int_max -> wrap_size z = z.
Proof. unfold wrap_size, At.int_max. intros H. apply Z.mod_small. lia. Qed.

Lemma subscript_in_range (self : string) (k : nat) :
  Z.of_nat (String.length self) <= At.int_max ->
  (k < String.length self)%nat ->
  exists c, get k self = Some c /\ subscript self (Z.of_nat k) = Ok c.
Proof.
  intros Hlen Hk. unfold subscript.
  rewrite wrap_int_id by (unfold At.int_min, At.int_max in *; lia).
  destruct (at_circular self (Z.of_nat k) Hlen) as [_ H].
  { unfold At.int_min, At.int_max in *. lia. }
  destruct H as (c & Hget & Hat); [destruct self; [simpl in Hk; lia | discriminate]|].
  rewrite Z.mod_small, Nat2Z.id in Hget by lia. eauto.
Qed.

Lemma subscript_some_char (self : string) (z : Z) :
  self <> ""%string -> Z.of_nat (String.length self) <= At.int_max ->
  exists c k, get k self = Some c /\ subscript self z = Ok c.
Proof.
  intros Hne Hlen. unfold subscript.
  destruct (at_circular self (At.wrap_int z) Hlen (wrap_int_range z)) as [_ H].
  destruct (H Hne) as (c & Hget & Hat). eauto.
Qed.

Lemma left_loop_spec (self chars : string) :
  Z.of_nat (String.length self) <= At.int_max ->
  forall fuel i,
    (i <= String.length self)%nat -> (String.length self - i < fuel)%nat ->
    (forall k, (k < i)%nat -> passes self chars k) ->
    exists i',
      (i <= i' <= String.length self)%nat /\
      left_loop fuel self chars (Z.of_nat (String.length self)) (Z.of_nat i)
        = Some (Ok (Z.of_nat i')) /\
      (forall k, (k < i')%nat -> passes self chars k) /\
      ((i' < String.length self)%nat ->
       exists c, get i' self = Some c /\ stripped chars c = false).
Proof.
  intros Hlen. induction fuel as [|fuel IH]; intros i Hi Hfuel Hpass; [lia|].
  cbn [left_loop].
  destruct (Z.ltb_spec (Z.of_nat i) (Z.of_nat (String.length self))) as [Hlt|Hge].
  - destruct (subscript_in_range self i Hlen ltac:(lia)) as (c & Hget & Hsub).
    rewrite Hsub. destruct (stripped chars c) eqn:Hc.
    + rewrite wrap_size_small by lia.
      replace (Z.of_nat i + 1) with (Z.of_nat (S i)) by lia.
      destruct (IH (S i)) as (i' & Hi' & Hloop & Hall & Hstop); [lia | lia | |].
      { intros k Hk c' Hc'. destruct (Nat.eq_dec k i) as [->|Hne].
        - congruence.
        - apply (Hpass k); [lia | assumption]. }
      exists i'. repeat split; auto; lia.
    + exists i. repeat split; auto; try lia. intros _. eauto.
  - exists i. repeat split; auto; lia.
Qed.

Lemma right_loop_spec (self chars : string) (i : nat) :
  Z.of_nat (String.length self) <= At.int_max ->
  forall fuel j,
    (i <= j <= String.length self)%nat -> (0 < j)%nat -> (j - i < fuel)%nat ->
    (forall k, (j <= k)%nat -> passes self chars k) ->
    ((0 < i)%nat \/
     exists m c, (m < j)%nat /\ get m self = Some c /\ stripped chars c = false) ->
    exists j',
      (i <= j' <= j)%nat /\
      right_loop fuel self chars (Z.of_nat i) (Z.of_nat j) = Some (Ok (Z.of_nat j' - 1)) /\
      (forall k, (j' <= k)%nat -> passes self chars k) /\
      ((i < j')%nat ->
       exists c, get (j' - 1) self = Some c /\ stripped chars c = false).
Proof.
  intros Hlen. induction fuel as [|fuel IH]; intros j Hj Hpos Hfuel Hpass Hlow; [lia|].
  cbn [right_loop].
  rewrite wrap_size_small by lia.
  replace (Z.of_nat j - 1) with (Z.of_nat (j - 1)) by lia.
  rewrite Z.geb_leb.
  destruct (Z.leb_spec (Z.of_nat i) (Z.of_nat (j - 1))) as [Hle|Hgt].
  - destruct (subscript_in_range self (j - 1) Hlen ltac:(lia)) as (c & Hget & Hsub).
    rewrite Hsub. destruct (stripped chars c) eqn:Hc.
    + assert (Hj1 : (0 < j - 1)%nat).
      { destruct Hlow as [Hi|(m & c' & Hm & Hget' & Hc')]; [lia|].
        destruct (Nat.eq_dec m (j - 1)) as [->|Hne]; [congruence | lia]. }
      destruct (IH (j - 1)%nat) as (j' & Hj' & Hloop & Hall & Hstop); [lia | lia | lia | | |].
      { intros k Hk c' Hc'. destruct (Nat.eq_dec k (j - 1)) as [->|Hne].
        - congruence.
        - apply (Hpass k); [lia | assumption]. }
      { destruct Hlow as [Hi|(m & c' & Hm & Hget' & Hc')]; [now left|].
        right. exists m, c'. repeat split; auto.
        destruct (Nat.eq_dec m (j - 1)) as [->|Hne]; [congruence | lia]. }
      exists j'. repeat split; auto; lia.
    + exists j. repeat split; auto; try lia.
      * f_equal. f_equal. lia.
      * intros _. eauto.
  - exists j. repeat split; auto; try lia.
    f_equal. f_equal. lia.
Qed.

Lemma substring_mid (s : string) :
  forall i j, (i <= j)%nat ->
  substring 0 j s = (substring 0 i s ++ substring i (j - i) s)%string.
Proof.
  induction s as [|c s IH]; intros i j Hij.
  - destruct i, j; try lia; reflexivity.
  - destruct i as [|i].
    + rewrite substring_0_0, Nat.sub_0_r. reflexivity.
    + destruct j as [|j]; [lia|]. cbn [substring append Nat.sub].
      f_equal. apply IH. lia.
Qed.

Lemma substring_all (s : string) : substring 0 (String.length s) s = s.
Proof. induction s as [|c s IH]; simpl; [reflexivity | now rewrite IH]. Qed.

Lemma substring_length (s : string) :
  forall i n, (i + n <= String.length s)%nat -> String.length (substring i n s) = n.
Proof.
  induction s as [|c s IH]; intros i n H; simpl in H.
  - destruct i, n; try lia; reflexivity.
  - destruct i as [|i].
    + destruct n as [|n]; [reflexivity|]. simpl. f_equal. apply (IH 0%nat). lia.
    + simpl. apply IH. lia.
Qed.

Lemma get_substring (s : string) :
  forall i n k, (k < n)%nat -> get k (substring i n s) = get (i + k) s.
Proof.
  induction s as [|c s IH]; intros i n k Hk.
  - destruct i, n; try lia; simpl; now destruct k.
  - destruct i as [|i].
    + destruct n as [|n]; [lia|]. destruct k as [|k]; [reflexivity|].
      simpl. apply (IH 0%nat). lia.
    + simpl. now apply IH.
Qed.

Lemma all_chars_prefix (p : ascii -> bool) (s : string) :
  forall i, (forall k c, (k < i)%nat -> get k s = Some c -> p c = true) ->
  all_chars p (substring 0 i s) = true.
Proof.
  induction s as [|c s IH]; intros i H.
  - now destruct i.
  - destruct i as [|i]; [reflexivity|]. simpl.
    rewrite (H 0%nat c) by (simpl; auto; lia). simpl. apply IH.
    intros k c' Hk Hget. apply (H (S k) c'); [lia | exact Hget].
Qed.

Lemma all_chars_drop (p : ascii -> bool) (s : string) :
  forall j, (forall k c, (j <= k)%nat -> get k s = Some c -> p c = true) ->
  all_chars p (drop j s) = true.
Proof.
  induction s as [|c s IH]; intros j H.
  - now destruct j.
  - destruct j as [|j].
    + simpl. rewrite (H 0%nat c) by (simpl; auto; lia). simpl. apply (IH 0%nat).
      intros k c' _ Hget. apply (H (S k) c'); [lia | exact Hget].
    + simpl. apply IH. intros k c' Hk Hget. apply (H (S k) c'); [lia | exact Hget].
Qed.

Lemma all_chars_get (p : ascii -> bool) (s : string) :
  all_chars p s = true -> forall k c, get k s = Some c -> p c = true.
Proof.
  induction s as [|x s IH]; intros H k c Hget; [discriminate Hget|].
  simpl in H. apply andb_prop in H. destruct H as [Hx Hs].
  destruct k as [|k]; simpl in Hget; [congruence | eauto].
Qed.

Lemma get_none (s : string) : forall k, (String.length s <= k)%nat -> get k s = None.
Proof.
  induction s as [|c s IH]; intros k H; [reflexivity|].
  destruct k as [|k]; simpl in *; [lia | apply IH; lia].
Qed.

Lemma get_some_lt (s : string) (k : nat) (c : ascii) :
  get k s = Some c -> (k < String.length s)%nat.
Proof.
  intros H. destruct (Nat.lt_ge_cases k (String.length s)) as [|Hge]; [assumption|].
  rewrite get_none in H by assumption. discriminate.
Qed.

(** [strip] in terms of the two indices it computes. *)
Lemma strip_indices (self chars : string) (strip_left strip_right : bool) :
  Z.of_nat (String.length self) <= At.int_max ->
  (strip_left = false -> strip_right = true ->
   self = ""%string \/ exists k c, get k self = Some c /\ stripped chars c = false) ->
  exists i j,
    (i <= j <= String.length self)%nat /\
    strip3 self chars strip_left strip_right = Some (Ok (substring i (j - i) self)) /\
    (if strip_left
     then (forall k, (k < i)%nat -> passes self chars k) /\
          ((i < String.length self)%nat ->
           exists c, get i self = Some c /\ stripped chars c = false)
     else i = 0%nat) /\
    (if strip_right
     then (forall k, (j <= k)%nat -> passes self chars k) /\
          ((i < j)%nat -> exists c, get (j - 1) self = Some c /\ stripped chars c = false)
     else j = String.length self).
Proof.
  intros Hlen Hex. set (L := String.length self) in *.
  (* the left index *)
  assert (Hleft : exists i,
            (i <= L)%nat /\
            (if strip_left then left_loop (S L) self chars (Z.of_nat L) 0
             else Some (Ok 0)) = Some (Ok (Z.of_nat i)) /\
            (if strip_left
             then (forall k, (k < i)%nat -> passes self chars k) /\
                  ((i < L)%nat -> exists c, get i self = Some c /\ stripped chars c = false)
             else i = 0%nat)).
  { destruct strip_left.
    - destruct (left_loop_spec self chars Hlen (S L) 0%nat) as (i & Hi & Hloop & Hall & Hstop);
        [lia | unfold L; lia | intros k Hk; lia |].
      exists i. repeat split; auto. lia.
    - exists 0%nat. repeat split; auto. lia. }
  destruct Hleft as (i & Hi & Hloop & Hlead).
  (* the right index *)
  assert (Hright : exists j,
            (i <= j <= L)%nat /\
            (if strip_right && negb (Z.of_nat L =? 0)
             then option_map (result_map (fun j => wrap_size (j + 1)))
                    (right_loop (S L) self chars (Z.of_nat i) (Z.of_nat L))
             else Some (Ok (Z.of_nat L))) = Some (Ok (Z.of_nat j)) /\
            (if strip_right
             then (forall k, (j <= k)%nat -> passes self chars k) /\
                  ((i < j)%nat ->
                   exists c, get (j - 1) self = Some c /\ stripped chars c = false)
             else j = L)).
  { destruct strip_right; cbn [andb].
    - destruct (Z.eqb_spec (Z.of_nat L) 0) as [H0|Hn0]; cbn [negb].
      + exists L. repeat split; auto; try lia.
        intros k Hk c Hget. rewrite get_none in Hget by (unfold L in *; lia). discriminate.
      + destruct (right_loop_spec self chars i Hlen (S L) L)
          as (j & Hj & Hrl & Hall & Hstop); [unfold L; lia | lia | lia | | |].
        { intros k Hk c Hget. rewrite get_none in Hget by (unfold L in *; lia). discriminate. }
        { destruct strip_left.
          - destruct Hlead as [_ Hstop]. destruct (Nat.eq_dec i 0) as [->|]; [|left; lia].
            right. destruct Hstop as (c & Hget & Hc); [lia|]. exists 0%nat, c.
            repeat split; auto. lia.
          - right. destruct (Hex eq_refl eq_refl) as [->|(k & c & Hget & Hc)];
              [simpl in Hn0; lia|].
            exists k, c. repeat split; auto. now apply get_some_lt in Hget. }
        exists j. repeat split; auto; try lia.
        rewrite Hrl. cbn [option_map result_map]. f_equal. f_equal.
        replace (Z.of_nat j - 1 + 1) with (Z.of_nat j) by lia.
        apply wrap_size_small. lia.
    - exists L. repeat split; auto; lia. }
  destruct Hright as (j & Hj & Hrloop & Htrail).
  exists i, j. split; [lia|]. split; [|split; assumption].
  unfold strip3, strip_fuel. fold L. rewrite Hloop, Hrloop.
  rewrite wrap_size_small by lia.
  destruct (Z.eqb_spec (Z.of_nat j - Z.of_nat i) (Z.of_nat L)) as [Heq|Hne].
  - assert (i = 0%nat /\ j = L) as [-> ->] by lia.
    rewrite Nat.sub_0_r. unfold L. now rewrite substring_all.
  - unfold substr. fold L.
    destruct (Z.leb_spec (Z.of_nat i) (Z.of_nat L)); [|lia].
    rewrite Nat2Z.id. do 3 f_equal. lia.
Qed.

(** X14.  [strip], [lstrip] and [rstrip] return the text without a run
    of stripped bytes at the left end (when [strip_left]) and at the right
    end (when [strip_right]); what is cut holds stripped bytes only, and the
    result begins and ends with a byte that is not stripped.  Only the
    right-only form needs a byte that is not stripped in the text. *)
Theorem strip_removes_both_ends (self chars : string) (strip_left strip_right : bool) :
  Z.of_nat (String.length self) <= At.int_max ->
  (strip_left = false -> strip_right = true ->
   self = ""%string \/ exists k c, get k self = Some c /\ stripped chars c = false) ->
  exists lead r trail,
    strip3 self chars strip_left strip_right = Some (Ok r) /\
    self = (lead ++ r ++ trail)%string /\
    all_chars (stripped chars) lead = true /\
    all_chars (stripped chars) trail = true /\
    (strip_left = false -> lead = ""%string) /\
    (strip_right = false -> trail = ""%string) /\
    (strip_left = true -> forall c, get 0 r = Some c -> stripped chars c = false) /\
    (strip_right = true ->
     forall c, get (String.length r - 1) r = Some c -> stripped chars c = false).
Proof.
  intros Hlen Hex.
  destruct (strip_indices self chars strip_left strip_right Hlen Hex)
    as (i & j & Hij & Hstrip & Hlead & Htrail).
  exists (substring 0 i self), (substring i (j - i) self), (drop j self).
  assert (Hrlen : String.length (substring i (j - i) self) = (j - i)%nat)
    by (apply substring_length; lia).
  split; [exact Hstrip|]. split.
  { rewrite <- append_assoc, <- substring_mid by lia. apply substring_0_split. lia. }
  split.
  { destruct strip_left.
    - apply all_chars_prefix. intros k c Hk Hget. now apply (proj1 Hlead k Hk c).
    - subst i. now rewrite substring_0_0. }
  split.
  { destruct strip_right.
    - apply all_chars_drop. intros k c Hk Hget. now apply (proj1 Htrail k Hk c).
    - subst j. clear. induction self as [|c s IH]; [reflexivity | exact IH]. }
  split; [intros ->; subst i; apply substring_0_0|].
  split.
  { intros ->. subst j. clear. induction self as [|c s IH]; [reflexivity | exact IH]. }
  split.
  - intros -> c Hget. destruct Hlead as [_ Hstop].
    destruct (Nat.eq_dec i j) as [->|Hne].
    + rewrite Nat.sub_diag in Hget.
      replace (substring j 0 self) with ""%string in Hget; [discriminate|].
      symmetry. clear. revert j. induction self as [|c s IH]; intros [|j]; simpl; auto.
    + rewrite get_substring, Nat.add_0_r in Hget by lia.
      destruct Hstop as (c' & Hget' & Hc'); [lia|]. congruence.
  - intros -> c Hget. destruct Htrail as [_ Hstop]. rewrite Hrlen in Hget.
    destruct (Nat.eq_dec i j) as [->|Hne].
    + rewrite Nat.sub_diag in Hget.
      replace (substring j 0 self) with ""%string in Hget; [discriminate|].
      symmetry. clear. revert j. induction self as [|c s IH]; intros [|j]; simpl; auto.
    + rewrite get_substring in Hget by lia.
      replace (i + (j - i - 1))%nat with (j - 1)%nat in Hget by lia.
      destruct Hstop as (c' & Hget' & Hc'); [lia|]. congruence.
Qed.

Lemma strip_removes_both_ends_witness :
  exists lead r trail,
    strip3 "  hi there " "" true true = Some (Ok r) /\
    "  hi there "%string = (lead ++ r ++ trail)%string /\
    all_chars (stripped "") lead = true /\
    all_chars (stripped "") trail = true /\
    (true = false -> lead = ""%string) /\
    (true = false -> trail = ""%string) /\
    (true = true -> forall c, get 0 r = Some c -> stripped "" c = false) /\
    (true = true ->
     forall c, get (String.length r - 1) r = Some c -> stripped "" c = false).
Proof.
  apply (strip_removes_both_ends "  hi there " "" true true).
  - vm_compute. discriminate.
  - discriminate.
Defined.

(** X15.  [rstrip] (right only) of a non-empty text made of stripped
    bytes only never returns: once [j] has passed index 0 it wraps around,
    the circular subscript keeps answering with bytes of the text, and the
    loop goes on. *)
Theorem rstrip_of_stripped_text_never_returns (self chars : string) (fuel : nat) :
  self <> ""%string ->
  Z.of_nat (String.length self) <= At.int_max ->
  all_chars (stripped chars) self = true ->
  strip_fuel fuel self chars false true = None.
Proof.
  intros Hne Hlen Hall.
  assert (Hloop : forall fuel j, right_loop fuel self chars 0 j = None).
  { clear fuel. induction fuel as [|fuel IH]; intros j; [reflexivity|].
    cbn [right_loop]. rewrite Z.geb_leb.
    destruct (Z.leb_spec 0 (wrap_size (j - 1))) as [_|Hneg].
    - destruct (subscript_some_char self (wrap_size (j - 1)) Hne Hlen) as (c & k & Hget & Hsub).
      rewrite Hsub, (all_chars_get _ _ Hall k c Hget). apply IH.
    - unfold wrap_size in Hneg. pose proof (Z.mod_pos_bound (j - 1) (2 ^ 64) ltac:(lia)). lia. }
  unfold strip_fuel.
  destruct (Z.eqb_spec (Z.of_nat (String.length self)) 0) as [H0|_].
  - destruct self; [congruence | simpl in H0; lia].
  - cbn [andb negb]. now rewrite Hloop.
Qed.

Lemma rstrip_of_stripped_text_never_returns_witness :
  strip_fuel 1000 "   " "" false true = None.
Proof.
  apply (rstrip_of_stripped_text_never_returns "   " "" 1000).
  - discriminate.
  - vm_compute. discriminate.
  - reflexivity.
Defined.

End StripFacts.

(** ** ini: what load accepts *)

Section IniLoad.
Import WString Ini.

Lemma delimiter_free_append (d a b : string) :
  delimiter_free d (a ++ b) = delimiter_free d a && delimiter_free d b.
Proof.
  induction a as [|c a IH]; simpl; [reflexivity | now rewrite IH, andb_assoc].
Qed.

Lemma split_loop_run (d run : string) :
  delimiter_free d run = true ->
  forall rest str tokens,
    split_loop d (run ++ rest) str tokens = split_loop d rest (str ++ run) tokens.
Proof.
  induction run as [|c run IH]; intros Hfree rest str tokens.
  - now rewrite append_nil_r.
  - cbn [delimiter_free] in Hfree. apply andb_prop in Hfree. destruct Hfree as [Hc Hrun].
    apply negb_true_iff in Hc. cbn [append split_loop]. rewrite Hc, IH by assumption.
    now rewrite append_assoc.
Qed.

Lemma split_loop_run_end (d run : string) :
  delimiter_free d run = true ->
  forall str tokens, split_loop d run str tokens = (str ++ run, tokens).
Proof.
  intros H str tokens. rewrite <- (append_nil_r run) at 1.
  now rewrite split_loop_run.
Qed.

Lemma tokenize_loop_run_end (d line : string) :
  delimiter_free d line = true ->
  forall back_ front_,
    tokenize_loop d line (back_ :: front_) = (back_ ++ line) :: front_.
Proof.
  intros H back_ front_. rewrite <- (append_nil_r line) at 1.
  now rewrite tokenize_loop_run.
Qed.

Lemma strip_comment_none (line : string) :
  delimiter_free ";" line = true -> strip_comment line = line.
Proof.
  intros H. unfold strip_comment.
  assert (Hn : forall pos, find_first_of line ";" pos = None).
  { induction line as [|c line IH]; intros pos; [reflexivity|].
    cbn [delimiter_free] in H. apply andb_prop in H. destruct H as [Hc Hl].
    unfold is_delimiter in Hc. simpl in Hc. rewrite orb_false_r in Hc.
    apply negb_true_iff in Hc. cbn [find_first_of]. rewrite Hc. now apply IH. }
  now rewrite Hn.
Qed.

Lemma plain_facts (s : string) :
  plain s = true ->
  s <> "" /\ delimiter_free "[]=" s = true /\
  delimiter_free CRLF s = true /\ delimiter_free ";" s = true.
Proof.
  unfold plain. rewrite !andb_true_iff, negb_true_iff.
  intros [[[Hlen H1] H2] H3]. repeat split; auto.
  intros ->. discriminate Hlen.
Qed.

Lemma length_nonzero (s : string) : s <> "" -> (length s =? 0)%nat = false.
Proof. destruct s; [congruence | reflexivity]. Qed.

(** X16.  A section line followed by a key line loads as the one entry
    section.key -> value, for names and a value that are plain. *)
Theorem load_section_and_key (section key value : string) :
  plain section = true -> plain key = true -> plain value = true ->
  load ("[" ++ section ++ "]" ++ CRLF ++ key ++ "=" ++ value) =
  (true, [(section ++ "." ++ key, value)]).
Proof.
  intros Hs Hk Hv.
  destruct (plain_facts _ Hs) as (Hs0 & Hs1 & Hs2 & Hs3).
  destruct (plain_facts _ Hk) as (Hk0 & Hk1 & Hk2 & Hk3).
  destruct (plain_facts _ Hv) as (Hv0 & Hv1 & Hv2 & Hv3).
  set (l1 := "[" ++ section ++ "]").
  set (l2 := key ++ "=" ++ value).
  assert (Hl1 : forall d, delimiter_free d section = true ->
                  is_delimiter d "[" = false -> is_delimiter d "]" = false ->
                  delimiter_free d l1 = true).
  { intros d H Ha Hb. unfold l1. cbn [append delimiter_free].
    rewrite Ha, delimiter_free_append, H. cbn [delimiter_free]. now rewrite Hb. }
  assert (Hl2 : forall d, delimiter_free d key = true -> delimiter_free d value = true ->
                  is_delimiter d "=" = false -> delimiter_free d l2 = true).
  { intros d H H' Ha. unfold l2. rewrite delimiter_free_append, H.
    cbn [append delimiter_free andb]. now rewrite Ha, H'. }
  assert (Hl2ne : l2 <> "") by (unfold l2; destruct key; [congruence | discriminate]).
  (* the two lines *)
  assert (Hlines : tokenize ("[" ++ section ++ "]" ++ CRLF ++ l2) CRLF = [l1; l2]).
  { replace ("[" ++ section ++ "]" ++ CRLF ++ l2)
      with (l1 ++ String "013" (String "010" l2))
      by (unfold l1, CRLF; cbn [append]; now rewrite !append_assoc).
    rewrite tokenize_first_line;
      [| unfold l1; discriminate | apply Hl1; auto | reflexivity].
    f_equal. unfold tokenize. cbn [tokenize_loop].
    change (is_delimiter CRLF "010") with true. cbn [negb length Nat.eqb].
    rewrite tokenize_loop_run_end by (apply Hl2; auto).
    cbn [append pop_empty]. now rewrite (length_nonzero l2 Hl2ne). }
  (* their tokens *)
  assert (Hsplit1 : split (strip_comment l1) "[]=" = ["["; section; "]"]).
  { rewrite strip_comment_none by (apply Hl1; auto).
    unfold split, l1. cbn [append split_loop].
    change (is_delimiter "[]=" "[") with true. cbn [negb length Nat.eqb].
    rewrite split_loop_run by assumption. cbn [append split_loop].
    change (is_delimiter "[]=" "]") with true.
    now rewrite (length_nonzero section Hs0). }
  assert (Hsplit2 : split (strip_comment l2) "[]=" = [key; "="; value]).
  { rewrite strip_comment_none by (apply Hl2; auto).
    unfold split, l2. rewrite split_loop_run by assumption. cbn [append split_loop].
    change (is_delimiter "[]=" "=") with true.
    rewrite (length_nonzero key Hk0). cbn [negb].
    rewrite split_loop_run_end by assumption.
    cbn [append]. now rewrite (length_nonzero value Hv0). }
  unfold load. rewrite Hlines. cbn [load_lines]. rewrite Hsplit1.
  cbn [String.eqb Ascii.eqb Bool.eqb andb]. rewrite Hsplit2.
  assert (Hkey : (key =? "[")%string = false).
  { apply String.eqb_neq. intros ->. discriminate Hk1. }
  rewrite Hkey. cbn [andb String.eqb Ascii.eqb Bool.eqb]. reflexivity.
Qed.

Lemma load_section_and_key_witness :
  load ("[" ++ "video" ++ "]" ++ CRLF ++ "width" ++ "=" ++ "640") =
  (true, [("video" ++ "." ++ "width", "640")]).
Proof.
  apply (load_section_and_key "video" "width" "640"); reflexivity.
Defined.

End IniLoad.

(** ** push, pop, back, front *)

Section Ends.
Import WString.

Lemma get_append_last (s : string) (c : ascii) :
  get (length s) (s ++ String c "") = Some c.
Proof. induction s as [|x s IH]; simpl; [reflexivity | exact IH]. Qed.

Lemma remove_last_append (s : string) (c : ascii) :
  remove_last (s ++ String c "") = s.
Proof.
  induction s as [|x s IH]; [reflexivity|].
  cbn [append remove_last]. rewrite IH.
  destruct (s ++ String c "") eqn:E; [destruct s; discriminate E | reflexivity].
Qed.

(** X17.  What [push_back] appends is what [back] reads and what
    [pop_back] removes, and the same at the front; on the empty string
    [back] and [front] read a NUL and the pops change nothing. *)
Theorem push_pop_round_trip (self : string) (c : ascii) :
  (Z.of_nat (length self) < At.int_max)%Z ->
  back (push_back self c) = Ok c /\
  pop_back (push_back self c) = self /\
  front (push_front self c) = Ok c /\
  pop_front (push_front self c) = self /\
  back "" = Ok Matches.NUL /\ front "" = Ok Matches.NUL /\
  pop_back "" = "" /\ pop_front "" = "".
Proof.
  intros Hlen.
  assert (Hlen' : length (self ++ String c "") = S (length self))
    by (rewrite length_append; simpl; lia).
  repeat split.
  - unfold back, push_back.
    destruct (at_circular (self ++ String c "") (-1)) as [_ H];
      [rewrite Hlen'; lia | unfold At.int_min, At.int_max; lia |].
    destruct H as (x & Hget & Hat); [destruct self; discriminate|].
    rewrite Hat. f_equal. rewrite Hlen' in Hget.
    replace (Z.to_nat ((-1) mod Z.of_nat (S (length self)))) with (length self) in Hget.
    + rewrite get_append_last in Hget. congruence.
    + rewrite <- (Z.mod_unique (-1) (Z.of_nat (S (length self))) (-1) (Z.of_nat (length self)));
        lia.
  - unfold pop_back, push_back. rewrite Hlen'. cbn [Nat.eqb]. apply remove_last_append.
  - unfold front, push_front. cbn [append].
    destruct (at_circular (String c self) 0) as [_ H];
      [simpl length; lia | unfold At.int_min, At.int_max; lia |].
    destruct H as (x & Hget & Hat); [discriminate|].
    rewrite Hat. f_equal. rewrite Z.mod_0_l in Hget by (simpl length; lia).
    simpl in Hget. congruence.
Qed.

Lemma push_pop_round_trip_witness :
  back (push_back "ab" "c") = Ok "c"%char /\
  pop_back (push_back "ab" "c") = "ab" /\
  front (push_front "ab" "c") = Ok "c"%char /\
  pop_front (push_front "ab" "c") = "ab" /\
  back "" = Ok Matches.NUL /\ front "" = Ok Matches.NUL /\
  pop_back "" = "" /\ pop_front "" = "".
Proof.
  apply (push_pop_round_trip "ab" "c"). vm_compute. reflexivity.
Defined.

End Ends.

(** ** formatsafe *)

Section FormatFacts.
Import Format.

Lemma formatsafe_loop_none (args : list string) (fmt : string) :
  forall out,
    formatsafe_loop (S (List.length args)) fmt args out = None <->
    In (S (List.length args)) (map nat_of_ascii (list_ascii_of_string fmt)).
Proof.
  induction fmt as [|ch fmt IH]; intros out; cbn [formatsafe_loop list_ascii_of_string map In].
  - split; [discriminate | contradiction].
  - destruct (Nat.ltb_spec (S (List.length args)) (nat_of_ascii ch)) as [Hgt|Hle].
    + rewrite IH. split; [auto | intros [H|H]; [lia | assumption]].
    + destruct (Nat.eqb_spec (nat_of_ascii ch) 0) as [H0|Hn0].
      * rewrite IH. split; [auto | intros [H|H]; [lia | assumption]].
      * destruct (nth_error args (nat_of_ascii ch - 1)) as [a|] eqn:Hnth.
        -- rewrite IH. split; [auto|]. intros [H|H]; [|assumption].
           assert (nat_of_ascii ch - 1 < List.length args)%nat
             by (apply nth_error_Some; congruence).
           lia.
        -- split; [|reflexivity]. intros _. left.
           apply nth_error_None in Hnth. lia.
Qed.

(** X18.  [formatsafe] stays inside its array of [N] strings exactly when
    no byte of the format has the value [N]: the test [ch > N] lets the
    byte [N] through to [t[N]]. *)
Theorem formatsafe_out_of_bounds_iff (fmt : string) (args : list string) :
  formatsafe fmt args = None <->
  In (S (List.length args)) (map nat_of_ascii (list_ascii_of_string fmt)).
Proof. apply formatsafe_loop_none. Qed.

Example formatsafe_examples :
  formatsafe (String "001" ", " ++ String "002" "!") ["hello"; "world"]
    = Some "hello, world!" /\
  formatsafe (String "002" "") ["only"] = None.
Proof. split; reflexivity. Qed.

End FormatFacts.

(** ** replace_map: a text without any pattern *)

Section ReplaceMapUnchanged.
Import ReplaceMap.

(** X19.  A text in which no pattern of the map starts at any position is
    returned unchanged. *)
Theorem replace_map_without_occurrence (self : string) (m : smap) :
  (forall j t r, In (t, r) m -> prefix t (drop j self) = false) ->
  replace_map self m = Some (Ok self).
Proof.
  induction self as [|c s IH]; intros Hno; [reflexivity|].
  rewrite replace_map_miss.
  - rewrite IH; [reflexivity|]. intros j t r Hin. exact (Hno (S j) t r Hin).
  - rewrite <- (app_nil_r (rev m)).
    rewrite scan_rules_skip; [reflexivity|].
    intros t r Hin. apply in_rev in Hin. rewrite starts_at_prefix.
    exact (Hno 0 t r Hin).
Qed.

Lemma replace_map_without_occurrence_witness :
  replace_map "hello" (register [("xy", "1"); ("lo!", "2")]) = Some (Ok "hello").
Proof.
  apply replace_map_without_occurrence.
  intros j t r [[= <- <-]|[[= <- <-]|[]]];
    destruct j as [|[|[|[|[|[|j]]]]]]; reflexivity.
Defined.

End ReplaceMapUnchanged.
